(** * mailto-mail-merge: link generation, personalisation and page rendering

    A shallow embedding of [mailto-mail-merge.py].

    Text.  A Python [str] is represented by the byte string of its UTF-8
    encoding (a Rocq [string], one [ascii] per byte).  This is the byte
    sequence that [urllib.parse.quote] percent-encodes, and because UTF-8 is
    self-synchronising the searches the program makes for ASCII tokens
    ([str.replace], [str.split], [str.endswith]) act on the bytes exactly as
    they act on the code points.  Strings holding lone surrogates have no
    UTF-8 encoding and are not represented.

    Library functions ([urllib.parse.quote], [urllib.parse.urlencode],
    [str.replace], [str.split], [str.strip], [csv.DictReader]) are written
    out from their CPython definitions; [markdown.markdown] and [csv.reader]
    are parameters of the driver. *)

From Stdlib Require Import String Ascii List Bool Arith NArith Lia.
From Stdlib Require Import DecimalString DecimalNat.
Import ListNotations.
Local Open Scope list_scope.
Local Open Scope string_scope.

(** ** Strings *)

Module Str.

(** Truth value of a [str]: non-empty. *)
Definition truthy (s : string) : bool :=
  match s with
  | EmptyString => false
  | String _ _ => true
  end.

(** [sep.join(parts)]. *)
Definition join (sep : string) (parts : list string) : string :=
  String.concat sep parts.

(** Character-wise expansion of a string. *)
Fixpoint expand (f : ascii -> string) (s : string) : string :=
  match s with
  | EmptyString => EmptyString
  | String c r => f c ++ expand f r
  end.

Fixpoint all (p : ascii -> bool) (s : string) : bool :=
  match s with
  | EmptyString => true
  | String c r => p c && all p r
  end.

(** [c in s] for a single character. *)
Fixpoint mem (c : ascii) (s : string) : bool :=
  match s with
  | EmptyString => false
  | String d r => Ascii.eqb c d || mem c r
  end.

(** [s[n:]]. *)
Fixpoint drop (n : nat) (s : string) : string :=
  match n, s with
  | O, _ => s
  | S _, EmptyString => EmptyString
  | S k, String _ r => drop k r
  end.


(** [p in s] for a pattern [p]. *)
Fixpoint contains (p s : string) : bool :=
  String.prefix p s ||
  match s with
  | EmptyString => false
  | String _ r => contains p r
  end.

(** [s.endswith(p)]. *)
Fixpoint endswith (s p : string) : bool :=
  String.eqb s p ||
  match s with
  | EmptyString => false
  | String _ r => endswith r p
  end.

(** [s.split(sep)] for a one-character separator. *)
Fixpoint split (sep : ascii) (s : string) : list string :=
  match s with
  | EmptyString => [EmptyString]
  | String c r =>
      if Ascii.eqb c sep then EmptyString :: split sep r
      else match split sep r with
           | h :: t => String c h :: t
           | [] => [String c EmptyString]
           end
  end.

(** [s.partition(sep)] for a one-character separator, without the middle
    component: the text before the first separator and the text after it. *)
Fixpoint cut (sep : ascii) (s : string) : string * string :=
  match s with
  | EmptyString => (EmptyString, EmptyString)
  | String c r =>
      if Ascii.eqb c sep then (EmptyString, r)
      else let (a, b) := cut sep r in (String c a, b)
  end.

Fixpoint rev_onto (s acc : string) : string :=
  match s with
  | EmptyString => acc
  | String c r => rev_onto r (String c acc)
  end.

(** [s[::-1]]. *)
Definition rev (s : string) : string := rev_onto s EmptyString.

(** The UTF-8 encoding of a code point. *)
Definition utf8 (cp : N) : string :=
  let byte n := ascii_of_N n in
  (if cp <? 128 then String (byte cp) EmptyString
   else if cp <? 2048 then
     String (byte (192 + cp / 64)) (String (byte (128 + cp mod 64)) EmptyString)
   else if cp <? 65536 then
     String (byte (224 + cp / 4096))
       (String (byte (128 + (cp / 64) mod 64))
          (String (byte (128 + cp mod 64)) EmptyString))
   else
     String (byte (240 + cp / 262144))
       (String (byte (128 + (cp / 4096) mod 64))
          (String (byte (128 + (cp / 64) mod 64))
             (String (byte (128 + cp mod 64)) EmptyString))))%N.

(** The code points for which [str.isspace] holds, which are the ones
    [str.strip()] removes. *)
Definition whitespace : list N :=
  [9; 10; 11; 12; 13; 28; 29; 30; 31; 32; 133; 160; 5760;
   8192; 8193; 8194; 8195; 8196; 8197; 8198; 8199; 8200; 8201; 8202;
   8232; 8233; 8239; 8287; 12288]%N.

(** The text after a leading occurrence of one of [pats], if there is one. *)
Fixpoint after_any (pats : list string) (s : string) : option string :=
  match pats with
  | [] => None
  | p :: ps =>
      if String.prefix p s then Some (drop (String.length p) s)
      else after_any ps s
  end.

Fixpoint lstrip_any (pats : list string) (fuel : nat) (s : string) : string :=
  match fuel with
  | O => s
  | S k =>
      match after_any pats s with
      | Some r => lstrip_any pats k r
      | None => s
      end
  end.

(** [s.lstrip()]: every step removes at least one byte, so the length of
    the string is fuel enough. *)
Definition lstrip (s : string) : string :=
  lstrip_any (map utf8 whitespace) (String.length s) s.

(** [s.rstrip()], on the reversed string with the reversed encodings. *)
Definition rstrip (s : string) : string :=
  rev (lstrip_any (map (fun cp => rev (utf8 cp)) whitespace) (String.length s) (rev s)).

(** [s.strip()]. *)
Definition strip (s : string) : string := rstrip (lstrip s).

(** The scan of [str.replace] for a non-empty [old]: [skip] counts the
    characters of a match that are still to be passed over. *)
Fixpoint replace_scan (old new : string) (skip : nat) (s : string) : string :=
  match s with
  | EmptyString => EmptyString
  | String c r =>
      match skip with
      | S k => replace_scan old new k r
      | O =>
          if String.prefix old s
          then new ++ replace_scan old new (String.length old - 1) r
          else String c (replace_scan old new 0 r)
      end
  end.

(** [s.replace(old, new)]: all occurrences, leftmost first, none
    overlapping; an empty [old] matches before every character and at the
    end. *)
Definition replace (old new s : string) : string :=
  match old with
  | EmptyString => new ++ expand (fun c => String c new) s
  | String _ _ => replace_scan old new 0 s
  end.

End Str.

(** ** urllib.parse *)

Module Urllib.

Definition in_range (lo hi c : ascii) : bool :=
  Nat.leb (nat_of_ascii lo) (nat_of_ascii c) && Nat.leb (nat_of_ascii c) (nat_of_ascii hi).

(** [_ALWAYS_SAFE]: the unreserved characters of RFC 3986. *)
Definition always_safe (c : ascii) : bool :=
  in_range "A" "Z" c || in_range "a" "z" c || in_range "0" "9" c
  || Ascii.eqb c "_" || Ascii.eqb c "." || Ascii.eqb c "-" || Ascii.eqb c "~".

Definition hex_digit (n : nat) : ascii :=
  if Nat.ltb n 10 then ascii_of_nat (48 + n) else ascii_of_nat (55 + n).

(** ['%{:02X}'.format(b)]. *)
Definition percent (c : ascii) : string :=
  let n := nat_of_ascii c in
  String "%" (String (hex_digit (n / 16)) (String (hex_digit (n mod 16)) EmptyString)).

(** The quoter built by [_byte_quoter_factory(safe)]; [urlencode] passes
    [safe = ''], so only the unreserved characters stay as they are. *)
Definition quoter (c : ascii) : string :=
  if always_safe c then String c EmptyString else percent c.

(** [quote_from_bytes(bs, safe='')]: the empty string and a string of safe
    bytes only are returned as they are, anything else goes through the
    quoter byte by byte. *)
Definition quote_from_bytes (bs : string) : string :=
  if negb (Str.truthy bs) then EmptyString
  else if Str.all always_safe bs then bs
  else Str.expand quoter bs.

(** [quote(string, safe='')] on the UTF-8 bytes of [string]. *)
Definition quote (s : string) : string :=
  if negb (Str.truthy s) then s else quote_from_bytes s.

(** A [dict] with [str] keys and values, in insertion order. *)
Definition dict := list (string * string).

(** [d[k] = v]: an existing key keeps its position. *)
Fixpoint dict_set (k v : string) (d : dict) : dict :=
  match d with
  | [] => [(k, v)]
  | (k', v') :: r =>
      if String.eqb k' k then (k, v) :: r else (k', v') :: dict_set k v r
  end.

(** [urlencode(query, quote_via=quote)]: every key and value is quoted with
    [safe = ''] and the pairs are joined with ['&']. *)
Definition urlencode (query : dict) : string :=
  Str.join "&" (map (fun kv => quote (fst kv) ++ "=" ++ quote (snd kv)) query).

End Urllib.

(** ** The link generator *)

(** The [params] dictionary that [generate_mailto] builds. *)
Definition mailto_params (subject body : string) (cc_list : list string)
    (use_html_body : bool) : Urllib.dict :=
  let params := [("subject", subject)] in
  let params :=
    if use_html_body then Urllib.dict_set "html-body" body params
    else Urllib.dict_set "body" body params in
  match cc_list with
  | [] => params
  | _ :: _ => Urllib.dict_set "cc" (Str.join "," cc_list) params
  end.

Definition generate_mailto (email subject body : string)
    (cc_list : list string) (use_html_body : bool) : string :=
  let param_str := Urllib.urlencode (mailto_params subject body cc_list use_html_body) in
  "mailto:" ++ email ++ "?" ++ param_str.

(** ** Reading a query string back

    The claims about the parameters of a link are stated on the query string
    as a mail client reads it: cut at every ['&'], each piece cut at its
    first ['='], percent-escapes decoded. *)

Module Query.

Definition hex_value (c : ascii) : option nat :=
  let n := nat_of_ascii c in
  if Urllib.in_range "0" "9" c then Some (n - 48)
  else if Urllib.in_range "A" "F" c then Some (n - 55)
  else if Urllib.in_range "a" "f" c then Some (n - 87)
  else None.

(** Percent-decoding to bytes, as [urllib.parse.unquote_to_bytes]: an
    escape is ['%'] and two hexadecimal digits, any other ['%'] stands for
    itself. *)
Fixpoint unquote (s : string) : string :=
  match s with
  | EmptyString => EmptyString
  | String c rest =>
      if Ascii.eqb c "%" then
        match rest with
        | String h (String l r) =>
            match hex_value h, hex_value l with
            | Some a, Some b => String (ascii_of_nat (16 * a + b)) (unquote r)
            | _, _ => String c (unquote rest)
            end
        | _ => String c (unquote rest)
        end
      else String c (unquote rest)
  end.

(** The parameters of a query string, keys decoded, values as written. *)
Definition pairs (q : string) : list (string * string) :=
  map (fun piece => let (k, v) := Str.cut "=" piece in (unquote k, v))
      (Str.split "&" q).

Definition keys (q : string) : list string := map fst (pairs q).

Fixpoint assoc (k : string) (d : list (string * string)) : option string :=
  match d with
  | [] => None
  | (k', v) :: r => if String.eqb k' k then Some v else assoc k r
  end.

(** The value of parameter [k] as written in the query string. *)
Definition raw (k q : string) : option string := assoc k (pairs q).

(** The decoded value of parameter [k]. *)
Definition get (k q : string) : option string := option_map unquote (raw k q).

Definition count (k : string) (q : string) : nat :=
  count_occ string_dec (keys q) k.

End Query.

(** The key of the body parameter. *)
Definition body_key (use_html_body : bool) : string :=
  if use_html_body then "html-body" else "body".

(** Characters that can occur in quoted text. *)
Definition quoted_char (c : ascii) : bool :=
  Urllib.always_safe c || Ascii.eqb c "%".

(** ** The driver's pieces *)

(** The CC list of [main], from the [--cc] argument. *)
Definition parse_cc (cc : string) : list string :=
  if Str.truthy cc then
    flat_map
      (fun email => if Str.truthy (Str.strip email) then [Str.strip email] else [])
      (Str.split "," cc)
  else [].

(** The personalisation step of [main]'s loop: two passes of [replace], the
    second over the result of the first. *)
Definition personalize (message name : string) : string :=
  let personalized_message := message in
  let personalized_message := Str.replace "{{Name}}" name personalized_message in
  Str.replace "{{name}}" name personalized_message.

(** Personalisation in the words of the specification. *)
Module Spec.

(** One pass over the template: where either token starts the name is
    written and the scan goes on behind the token, so that substituted text
    is never read again. *)
Fixpoint substitute (name : string) (skip : nat) (s : string) : string :=
  match s with
  | EmptyString => EmptyString
  | String c r =>
      match skip with
      | S k => substitute name k r
      | O =>
          if String.prefix "{{name}}" s || String.prefix "{{Name}}" s
          then name ++ substitute name 7 r
          else String c (substitute name 0 r)
      end
  end.

Definition personalize (message name : string) : string := substitute name 0 message.

End Spec.

(** A template cut into its tokens and the text between them. *)
Inductive piece : Type :=
| Text (s : string)
| NameToken       (* the token with a small n *)
| NameTokenCap.   (* the token with a capital N *)

Definition written (p : piece) : string :=
  match p with
  | Text s => s
  | NameToken => "{{name}}"
  | NameTokenCap => "{{Name}}"
  end.

Fixpoint template_of (ps : list piece) : string :=
  match ps with
  | [] => EmptyString
  | p :: r => written p ++ template_of r
  end.

(** The template with every token replaced by [name]. *)
Fixpoint fill (name : string) (ps : list piece) : string :=
  match ps with
  | [] => EmptyString
  | Text s :: r => s ++ fill name r
  | _ :: r => name ++ fill name r
  end.

(** Text without an opening brace. *)
Definition plain (p : piece) : bool :=
  match p with
  | Text s => negb (Str.mem "{" s)
  | _ => true
  end.

Definition LF : ascii := ascii_of_nat 10.

(** The text [>], newline, [<]. *)
Definition gt_lf_lt : string := String ">" (String LF (String "<" EmptyString)).

Section Markdown.

(** [markdown.markdown], of the Python-Markdown package. *)
Variable markdown : string -> string.

(** The conversion step of [main]. *)
Definition convert_message (html_body : bool) (message_path message : string) : string :=
  if html_body then
    if Str.endswith message_path ".md"
    then Str.replace gt_lf_lt "><" (markdown message)
    else message
  else message.

End Markdown.

(** What [markdown.markdown] returns for one line of plain text: the line
    as a paragraph. *)
Definition md_paragraph (source : string) : string := "<p>" ++ source ++ "</p>".

(** ** csv.DictReader *)

Module Csv.

(** Keys of a row: a column name, or [None], the default [restkey]. *)
Inductive key : Type :=
| KStr (s : string)
| KNone.

(** Values of a row: a field, [None] (the default [restval]), or the list
    of surplus fields stored under [restkey]. *)
Inductive value : Type :=
| VStr (s : string)
| VNone
| VList (l : list string).

Definition row : Type := list (key * value).

Definition key_eqb (a b : key) : bool :=
  match a, b with
  | KStr x, KStr y => String.eqb x y
  | KNone, KNone => true
  | _, _ => false
  end.

(** [d[k] = v]. *)
Fixpoint set (k : key) (v : value) (d : row) : row :=
  match d with
  | [] => [(k, v)]
  | (k', v') :: r =>
      if key_eqb k' k then (k', v) :: r else (k', v') :: set k v r
  end.

(** [d.get(k)]. *)
Fixpoint get (k : key) (d : row) : option value :=
  match d with
  | [] => None
  | (k', v) :: r => if key_eqb k' k then Some v else get k r
  end.

(** [k in d]. *)
Definition has (k : string) (d : row) : bool :=
  match get (KStr k) d with
  | Some _ => true
  | None => false
  end.

(** [dict(zip(fieldnames, fields))], continuing from [d]. *)
Fixpoint zip_into (fieldnames fields : list string) (d : row) : row :=
  match fieldnames, fields with
  | f :: fs, x :: xs => zip_into fs xs (set (KStr f) (VStr x) d)
  | _, _ => d
  end.

(** The dictionary [DictReader.__next__] builds from one row of fields:
    surplus fields go under [restkey], missing ones are set to [restval]. *)
Definition dict_row (fieldnames fields : list string) : row :=
  let d := zip_into fieldnames fields [] in
  let lf := List.length fieldnames in
  let lr := List.length fields in
  if Nat.ltb lf lr then set KNone (VList (skipn lf fields)) d
  else if Nat.ltb lr lf then
    fold_left (fun d key => set (KStr key) VNone d) (skipn lr fieldnames) d
  else d.

Definition blank (fields : list string) : bool :=
  match fields with
  | [] => true
  | _ :: _ => false
  end.

(** [list(csv.DictReader(f))] over the rows [csv.reader] yields: the first
    row gives the field names, blank rows after it are passed over. *)
Definition DictReader (lines : list (list string)) : list row :=
  match lines with
  | [] => []
  | fieldnames :: rest =>
      map (dict_row fieldnames) (filter (fun fields => negb (blank fields)) rest)
  end.

End Csv.

(** The comprehension of [read_csv], on the parsed rows of the file. *)
Definition read_rows (lines : list (list string)) : list Csv.row :=
  filter (fun row => Csv.has "email" row && Csv.has "name" row) (Csv.DictReader lines).

(** ** The driver *)

(** Exceptions that leave [main] uncaught. *)
Inductive exn : Type :=
| FileError        (* [OSError] or [UnicodeDecodeError]: a file cannot be opened, decoded or written *)
| CsvError         (* [csv.reader] rejects the text *)
| KeyError         (* a contact without the key *)
| TypeError        (* [str.replace] with a replacement that is no [str] *)
| AttributeError.  (* [email.replace] on [None] *)

Inductive result (A : Type) : Type :=
| Ok (a : A)
| Raise (e : exn).

Arguments Ok {A} a.
Arguments Raise {A} e.

Definition bind {A B} (r : result A) (k : A -> result B) : result B :=
  match r with
  | Ok a => k a
  | Raise e => Raise e
  end.

Notation "x <- r ;; k" := (bind r (fun x => k))
  (at level 61, r at next level, right associativity).

(** The parsed command line: an option left out is [None], [--cc] defaults
    to the empty string and [--html-body] to [False]. *)
Record Args : Type := {
  contacts : option string;
  message : option string;
  subject : option string;
  output : option string;
  cc : string;
  html_body : bool
}.

(** What a run can observe of its surroundings. *)
Record World : Type := {
  (** [open(path, encoding="utf-8").read()]; [None] when the file cannot be
      opened or decoded. *)
  read_text : string -> option string;
  (** whether [open(path, "w")] succeeds *)
  writable : string -> bool;
  (** the wall clock at the start of the run *)
  now : N
}.

(** How a run ends: [sys.exit] or the normal end, with what was printed and
    written, or an uncaught exception (a traceback, exit status 1). *)
Inductive outcome : Type :=
| Exit (status : nat) (stdout stderr : string) (written : option (string * string))
| Uncaught (e : exn).

(** Truth value of an optional argument: given and non-empty. *)
Definition given (a : option string) : bool :=
  match a with
  | Some s => Str.truthy s
  | None => false
  end.

(** The text of an argument that passed the check of the required ones. *)
Definition text (a : option string) : string :=
  match a with
  | Some s => s
  | None => EmptyString
  end.

Definition missing_args (args : Args) : list string :=
  let missing_args := [] in
  let missing_args :=
    if negb (given (contacts args)) then (missing_args ++ ["--contacts"])%list else missing_args in
  let missing_args :=
    if negb (given (message args)) then (missing_args ++ ["--message"])%list else missing_args in
  if negb (given (subject args)) then (missing_args ++ ["--subject"])%list else missing_args.

(** [print(s, file=...)]. *)
Definition println (s : string) : string := s ++ String LF EmptyString.

Definition DQ : string := String (ascii_of_nat 34) EmptyString.

(** [str(i)]. *)
Definition str_of_nat (i : nat) : string := NilEmpty.string_of_uint (Nat.to_uint i).

Definition html_head : list string :=
  [ "<!DOCTYPE html>";
    "<html>";
    "<head>";
    "<meta charset='utf-8'>";
    "<title>Mail Merge Links</title>";
    "<style>";
    ".clicked { text-decoration: line-through; color: #666; }";
    ".mailto-item { margin: 10px 0; }";
    "</style>";
    "<script>";
    "function markClicked(element) {";
    "  element.classList.add('clicked');";
    "  // Store clicked state in localStorage";
    "  const clickedLinks = JSON.parse(localStorage.getItem('clickedMailtoLinks') || '[]');";
    "  const linkId = element.getAttribute('data-link-id');";
    "  if (!clickedLinks.includes(linkId)) {";
    "    clickedLinks.push(linkId);";
    "    localStorage.setItem('clickedMailtoLinks', JSON.stringify(clickedLinks));";
    "  }";
    "}";
    "";
    "function restoreClickedState() {";
    "  const clickedLinks = JSON.parse(localStorage.getItem('clickedMailtoLinks') || '[]');";
    "  clickedLinks.forEach(linkId => {";
    "    const element = document.querySelector(`[data-link-id='${linkId}']`);";
    "    if (element) {";
    "      element.classList.add('clicked');";
    "    }";
    "  });";
    "}";
    "";
    "window.onload = restoreClickedState;";
    "</script>";
    "</head>";
    "<body>";
    "<h1>Mailto Links</h1>";
    "<ul>" ].

Definition html_tail : list string := ["</ul>"; "</body>"; "</html>"].

(** [contact[k]]. *)
Definition getitem (contact : Csv.row) (k : string) : result Csv.value :=
  match Csv.get (Csv.KStr k) contact with
  | Some v => Ok v
  | None => Raise KeyError
  end.

Definition link_id (i : nat) (email : string) : string :=
  "mailto-" ++ str_of_nat i ++ "-"
    ++ Str.replace "." "-dot-" (Str.replace "@" "-at-" email).

(** The list item appended for contact number [i]. *)
Definition list_item (i : nat) (name email mailto_link : string) : string :=
  "<li class=" ++ DQ ++ "mailto-item" ++ DQ ++ " data-link-id=" ++ DQ ++ link_id i email ++ DQ
    ++ " onclick=" ++ DQ ++ "markClicked(this)" ++ DQ ++ ">"
    ++ name ++ ": <a href=" ++ DQ ++ mailto_link ++ DQ ++ ">" ++ email ++ "</a></li>".

(** The body of the loop for one contact.  A name that is [None] stops at
    the first [replace]; an email that is [None] is formatted into the link
    and stops at [email.replace]. *)
Definition render_contact (subject message : string) (cc_list : list string)
    (html_body : bool) (i : nat) (contact : Csv.row) : result string :=
  name <- getitem contact "name" ;;
  email <- getitem contact "email" ;;
  match name with
  | Csv.VStr name =>
      let personalized_message := personalize message name in
      match email with
      | Csv.VStr email =>
          let mailto_link :=
            generate_mailto email subject personalized_message cc_list html_body in
          Ok (list_item i name email mailto_link)
      | _ => Raise AttributeError
      end
  | _ => Raise TypeError
  end.

(** [for i, contact in enumerate(contacts): ... html_lines.append(...)],
    from index [i] on. *)
Fixpoint render_loop (subject message : string) (cc_list : list string)
    (html_body : bool) (i : nat) (contacts : list Csv.row) (html_lines : list string)
    : result (list string) :=
  match contacts with
  | [] => Ok html_lines
  | contact :: rest =>
      item <- render_contact subject message cc_list html_body i contact ;;
      render_loop subject message cc_list html_body (S i) rest (html_lines ++ [item])%list
  end.

(** The page of [main]: the head, one line per contact, the tail, joined
    with newlines. *)
Definition html_page (subject message : string) (cc_list : list string)
    (html_body : bool) (contacts : list Csv.row) : result string :=
  html_lines <- render_loop subject message cc_list html_body 0 contacts html_head ;;
  let html_lines := (html_lines ++ html_tail)%list in
  Ok (Str.join (String LF EmptyString) html_lines).

(** The name and the email of a contact that has both as text. *)
Definition name_and_email (contact : Csv.row) : option (string * string) :=
  match Csv.get (Csv.KStr "name") contact, Csv.get (Csv.KStr "email") contact with
  | Some (Csv.VStr name), Some (Csv.VStr email) => Some (name, email)
  | _, _ => None
  end.

(** The required arguments, as the usage text names them. *)
Definition required (args : Args) : list (string * option string) :=
  [("--contacts", contacts args); ("--message", message args); ("--subject", subject args)].

Section Driver.

Variable markdown : string -> string.

(** [list(csv.reader(f))] on the text of the file. *)
Variable csv_reader : string -> result (list (list string)).

Definition read_csv (w : World) (csv_path : string) : result (list Csv.row) :=
  match read_text w csv_path with
  | None => Raise FileError
  | Some f => lines <- csv_reader f ;; Ok (read_rows lines)
  end.

Definition read_message (w : World) (message_path : string) : result string :=
  match read_text w message_path with
  | None => Raise FileError
  | Some f => Ok f
  end.

(** [main] past the check of the required arguments. *)
Definition merge (w : World) (args : Args) : result outcome :=
  let cc_list := parse_cc (cc args) in
  let message_path := text (message args) in
  contacts <- read_csv w (text (contacts args)) ;;
  message <- read_message w message_path ;;
  let message := convert_message markdown (html_body args) message_path message in
  html_content <- html_page (text (subject args)) message cc_list (html_body args) contacts ;;
  if given (output args) then
    if writable w (text (output args))
    then Ok (Exit 0 EmptyString EmptyString (Some (text (output args), html_content)))
    else Raise FileError
  else Ok (Exit 0 (println html_content) EmptyString None).

Definition main (w : World) (args : Args) : outcome :=
  match missing_args args with
  | (_ :: _) as missing =>
      Exit 1 EmptyString
        (println ("Error: Missing required arguments: " ++ Str.join ", " missing)
         ++ println "Use --help for usage information.")
        None
  | [] =>
      match merge w args with
      | Ok o => o
      | Raise e => Uncaught e
      end
  end.

End Driver.

(** ** Auxiliary definitions *)

(** One pair of a dictionary as [urlencode] writes it. *)
Definition encoded (kv : string * string) : string :=
  Urllib.quote (fst kv) ++ "=" ++ Urllib.quote (snd kv).

(** A piece after the first pass of the personalisation: the capital token
    has become the name. *)
Definition cap_filled (name : string) (p : piece) : piece :=
  match p with
  | NameTokenCap => Text name
  | _ => p
  end.

Definition no_cap (p : piece) : bool :=
  match p with
  | NameTokenCap => false
  | _ => true
  end.

Section Items.

Variables (subject message : string) (cc_list : list string) (html_body : bool).

(** The list item of contact number [i] with the given name and email. *)
Definition contact_item (i : nat) (name email : string) : string :=
  list_item i name email
    (generate_mailto email subject (personalize message name) cc_list html_body).

(** The items of a list of contacts, numbered from [i] on. *)
Fixpoint items_from (i : nat) (pairs : list (string * string)) : list string :=
  match pairs with
  | [] => []
  | (name, email) :: rest => contact_item i name email :: items_from (S i) rest
  end.

End Items.

(** Characters that can occur in an encoded query string. *)
Definition query_char (c : ascii) : bool :=
  quoted_char c || Ascii.eqb c "=" || Ascii.eqb c "&".

(** Characters of the ASCII range. *)
Definition is_ascii (c : ascii) : bool := Nat.ltb (nat_of_ascii c) 128.

(** Decimal digits. *)
Definition is_digit (c : ascii) : bool := Urllib.in_range "0" "9" c.

(** The name and the email of a row of fields whose columns [a] and [b]
    hold them; nothing when the row is too short for one of the two. *)
Definition fields_at (a b : nat) (fields : list string) : option (string * string) :=
  match nth_error fields a, nth_error fields b with
  | Some name, Some email => Some (name, email)
  | _, _ => None
  end.

(** The rows of fields that are not blank. *)
Definition data_rows (rows : list (list string)) : list (list string) :=
  filter (fun fields => negb (Csv.blank fields)) rows.

(** A contact with a name and an email that are text. *)
Definition complete (contact : Csv.row) : bool :=
  match name_and_email contact with
  | Some _ => true
  | None => false
  end.

(** A contact with the two keys the loop reads. *)
Definition has_keys (contact : Csv.row) : bool :=
  Csv.has "name" contact && Csv.has "email" contact.

(** The exceptions a contact without a name or an email as text raises. *)
Definition none_error (e : exn) : bool :=
  match e with
  | TypeError | AttributeError => true
  | _ => false
  end.

(** The page of a run whose required arguments are given, before it is
    printed or written: the part of [main] between the check of the
    arguments and the output. *)
Definition page_of (markdown : string -> string)
    (csv_reader : string -> result (list (list string)))
    (w : World) (args : Args) : result string :=
  let message_path := text (message args) in
  contacts <- read_csv csv_reader w (text (contacts args)) ;;
  message <- read_message w message_path ;;
  html_page (text (subject args))
    (convert_message markdown (html_body args) message_path message)
    (parse_cc (cc args)) (html_body args) contacts.

(** ** Sample surroundings *)

(** A directory with a contacts file, a markdown message and a clock. *)
Definition sample_world (clock : N) (others : string -> option string) : World :=
  {| read_text := fun path =>
       if String.eqb path "contacts.csv" then Some "name,email"
       else if String.eqb path "message.md" then Some "Hello {{name}}"
       else others path;
     writable := fun _ => true;
     now := clock |}.

(** A reader that finds a header and two contacts. *)
Definition sample_reader (f : string) : result (list (list string)) :=
  Ok [["name"; "email"]; ["Alice"; "alice@example.com"]; ["Bob"; "bob@example.com"]].

(** * Properties *)

Section StringFacts.

Lemma append_nil_r (s : string) : s ++ "" = s.
Proof. induction s as [|c s IH]; simpl; [reflexivity | now rewrite IH]. Qed.

Lemma append_assoc (a b c : string) : (a ++ b) ++ c = a ++ (b ++ c).
Proof. induction a as [|x a IH]; simpl; [reflexivity | now rewrite IH]. Qed.

Lemma all_append p a b : Str.all p (a ++ b) = Str.all p a && Str.all p b.
Proof.
  induction a as [|x a IH]; simpl; [reflexivity|].
  now rewrite IH, andb_assoc.
Qed.

Lemma all_expand p f s :
  (forall c, Str.all p (f c) = true) -> Str.all p (Str.expand f s) = true.
Proof.
  intros Hf. induction s as [|c s IH]; simpl; [reflexivity|].
  now rewrite all_append, Hf, IH.
Qed.

Lemma all_mem p c s : Str.all p s = true -> p c = false -> Str.mem c s = false.
Proof.
  intros Hall Hc. induction s as [|d s IH]; simpl in *; [reflexivity|].
  apply andb_true_iff in Hall as [Hd Hs].
  rewrite (IH Hs), orb_false_r.
  destruct (Ascii.eqb_spec c d) as [->|]; [congruence | reflexivity].
Qed.

End StringFacts.

Section QuoteFacts.

Import Urllib.

Ltac each_byte c :=
  destruct c as [[] [] [] [] [] [] [] []]; vm_compute; reflexivity.

Lemma quoter_chars c : Str.all quoted_char (quoter c) = true.
Proof. each_byte c. Qed.

Lemma expand_safe s : Str.all always_safe s = true -> Str.expand quoter s = s.
Proof.
  induction s as [|c s IH]; simpl; [reflexivity|].
  intros H; apply andb_true_iff in H as [Hc Hs].
  unfold quoter at 1. rewrite Hc. simpl. now rewrite IH.
Qed.

(** The shortcuts of [quote] change nothing: it is the byte-wise quoter. *)
Lemma quote_expand s : quote s = Str.expand quoter s.
Proof.
  unfold quote, quote_from_bytes.
  destruct s as [|c s]; [reflexivity|].
  cbn [Str.truthy negb].
  destruct (Str.all always_safe (String c s)) eqn:E; [|reflexivity].
  symmetry; now apply expand_safe.
Qed.

Lemma quote_chars s : Str.all quoted_char (quote s) = true.
Proof. rewrite quote_expand. apply all_expand, quoter_chars. Qed.

Lemma quote_avoids c s : quoted_char c = false -> Str.mem c (quote s) = false.
Proof. intros Hc. apply all_mem with (p := quoted_char); [apply quote_chars | exact Hc]. Qed.

End QuoteFacts.

(** C1. With no CC address and the alternate-body flag off the link is
    [mailto:<email>?subject=<enc subject>&body=<enc body>]: the recipient is
    copied as it is, and [enc] is the strict percent-encoding, which writes a
    space as [%20], a slash as [%2F], a plus sign as [%2B], and whose output
    never holds a space, a ['+'] or a ['/']. *)
Theorem generate_mailto_plain_link (email subject body : string) :
  generate_mailto email subject body [] false
    = "mailto:" ++ email ++ "?subject=" ++ Urllib.quote subject
        ++ "&body=" ++ Urllib.quote body
  /\ Urllib.quote " " = "%20"
  /\ Urllib.quote "/" = "%2F"
  /\ Urllib.quote "+" = "%2B"
  /\ Str.mem " " (Urllib.quote subject ++ Urllib.quote body) = false
  /\ Str.mem "+" (Urllib.quote subject ++ Urllib.quote body) = false
  /\ Str.mem "/" (Urllib.quote subject ++ Urllib.quote body) = false.
Proof.
  assert (Hmem : forall c, quoted_char c = false ->
            Str.mem c (Urllib.quote subject ++ Urllib.quote body) = false).
  { intros c Hc. apply all_mem with (p := quoted_char); [|exact Hc].
    now rewrite all_append, !quote_chars. }
  repeat split; try reflexivity; apply Hmem; reflexivity.
Qed.

Section SplitFacts.

Variable sep : ascii.

Lemma split_not_nil s : Str.split sep s <> [].
Proof.
  destruct s as [|c r]; simpl; [discriminate|].
  destruct (Ascii.eqb c sep); [discriminate|].
  destruct (Str.split sep r); discriminate.
Qed.

Lemma split_no_sep s : Str.mem sep s = false -> Str.split sep s = [s].
Proof.
  induction s as [|c r IH]; simpl; [reflexivity|].
  intros H. apply orb_false_iff in H as [Hc Hr].
  rewrite Ascii.eqb_sym, Hc. now rewrite (IH Hr).
Qed.

Lemma split_append a b :
  Str.mem sep a = false ->
  Str.split sep (a ++ String sep b) = a :: Str.split sep b.
Proof.
  induction a as [|c r IH]; simpl.
  - now rewrite Ascii.eqb_refl.
  - intros H. apply orb_false_iff in H as [Hc Hr].
    rewrite Ascii.eqb_sym, Hc. now rewrite (IH Hr).
Qed.

(** Splitting undoes joining when no part holds the separator. *)
Lemma split_join parts :
  parts <> [] ->
  Forall (fun p => Str.mem sep p = false) parts ->
  Str.split sep (Str.join (String sep EmptyString) parts) = parts.
Proof.
  intros Hne Hall. induction Hall as [|p ps Hp Hps IH]; [congruence|].
  destruct ps as [|p' ps']; simpl.
  - now apply split_no_sep.
  - change (Str.split sep (p ++ String sep (Str.join (String sep EmptyString) (p' :: ps')))
            = p :: p' :: ps').
    rewrite split_append by exact Hp. f_equal. apply IH. discriminate.
Qed.

Lemma cut_append a b :
  Str.mem sep a = false -> Str.cut sep (a ++ String sep b) = (a, b).
Proof.
  induction a as [|c r IH]; simpl.
  - now rewrite Ascii.eqb_refl.
  - intros H. apply orb_false_iff in H as [Hc Hr].
    rewrite Ascii.eqb_sym, Hc. now rewrite (IH Hr).
Qed.

End SplitFacts.

Section QueryFacts.

Import Urllib.

Lemma unquote_quoter c r :
  Query.unquote (quoter c ++ r) = String c (Query.unquote r).
Proof. destruct c as [[] [] [] [] [] [] [] []]; reflexivity. Qed.

(** Decoding undoes the strict encoding. *)
Lemma unquote_quote s : Query.unquote (quote s) = s.
Proof.
  rewrite quote_expand.
  induction s as [|c r IH]; simpl; [reflexivity|].
  now rewrite unquote_quoter, IH.
Qed.

Lemma encoded_no_amp kv : Str.mem "&" (encoded kv) = false.
Proof.
  unfold encoded.
  apply all_mem with (p := fun c => quoted_char c || Ascii.eqb c "="); [|reflexivity].
  rewrite !all_append. simpl.
  assert (H : forall s, Str.all (fun c => quoted_char c || Ascii.eqb c "=") (quote s) = true).
  { intros s. generalize (quote_chars s). generalize (quote s) as t.
    induction t as [|c t IH]; simpl; [reflexivity|].
    intros E. apply andb_true_iff in E as [-> Et]. simpl. now apply IH. }
  now rewrite !H.
Qed.

(** A mail client reads back from an encoded dictionary the keys it was
    built from and the quoted values. *)
Lemma pairs_urlencode (d : dict) :
  d <> [] ->
  Query.pairs (urlencode d) = map (fun kv => (fst kv, quote (snd kv))) d.
Proof.
  intros Hne. unfold Query.pairs, urlencode.
  fold encoded. change (fun kv => quote (fst kv) ++ "=" ++ quote (snd kv)) with encoded.
  rewrite split_join.
  - rewrite map_map. apply map_ext. intros [k v]. unfold encoded. simpl.
    rewrite cut_append by (apply quote_avoids; reflexivity).
    now rewrite unquote_quote.
  - destruct d; [congruence | discriminate].
  - apply Forall_forall. intros p Hp. apply in_map_iff in Hp as [kv [<- _]].
    apply encoded_no_amp.
Qed.

Lemma mailto_params_not_nil subject body cc h :
  mailto_params subject body cc h <> [].
Proof. destruct h, cc; discriminate. Qed.

Lemma mailto_pairs subject body cc h :
  Query.pairs (urlencode (mailto_params subject body cc h))
  = ("subject", quote subject) :: (body_key h, quote body)
      :: match cc with
         | [] => []
         | _ :: _ => [("cc", quote (Str.join "," cc))]
         end.
Proof.
  rewrite pairs_urlencode by apply mailto_params_not_nil.
  destruct h, cc; reflexivity.
Qed.

End QueryFacts.

(** C2. Whatever the inputs, the link is [mailto:<email>?<query>] where the
    query holds the key [subject] once and one body parameter: [body] when
    the alternate-body flag is off, [html-body] when it is on, and never the
    other of the two; both carry the subject and the body given. *)
Theorem generate_mailto_subject_and_body
    (email subject body : string) (cc_list : list string) (use_html_body : bool) :
  let q := Urllib.urlencode (mailto_params subject body cc_list use_html_body) in
  generate_mailto email subject body cc_list use_html_body = "mailto:" ++ email ++ "?" ++ q
  /\ Query.keys q
     = "subject" :: body_key use_html_body
         :: match cc_list with [] => [] | _ :: _ => ["cc"] end
  /\ Query.count "subject" q = 1
  /\ Query.count (body_key use_html_body) q = 1
  /\ Query.count (body_key (negb use_html_body)) q = 0
  /\ Query.get "subject" q = Some subject
  /\ Query.get (body_key use_html_body) q = Some body.
Proof.
  intros q. subst q.
  unfold Query.count, Query.get, Query.raw, Query.keys.
  rewrite mailto_pairs.
  split; [reflexivity|].
  destruct use_html_body, cc_list; simpl; rewrite ?unquote_quote; repeat split; reflexivity.
Qed.

Lemma flat_map_filter_map {A B} (f : A -> B) (p : B -> bool) (l : list A) :
  flat_map (fun x => if p (f x) then [f x] else []) l = filter p (map f l).
Proof.
  induction l as [|x l IH]; simpl; [reflexivity|].
  rewrite IH. now destruct (p (f x)).
Qed.

Lemma parse_cc_filter cc :
  parse_cc cc = filter Str.truthy (map Str.strip (Str.split "," cc)).
Proof.
  unfold parse_cc. destruct cc as [|c r]; [reflexivity|].
  cbn [Str.truthy]. apply flat_map_filter_map.
Qed.


Section ReplaceFacts.

Lemma prefix_nil s : String.prefix "" s = true.
Proof. now destruct s. Qed.

Lemma prefix_append p r : String.prefix p (p ++ r) = true.
Proof.
  induction p as [|c p IH]; simpl; [apply prefix_nil|].
  destruct (ascii_dec c c); [exact IH | congruence].
Qed.

Lemma prefix_split p s :
  String.prefix p s = true -> s = p ++ Str.drop (String.length p) s.
Proof.
  revert s. induction p as [|c p IH]; intros s H; [reflexivity|].
  destruct s as [|d s]; simpl in H; [discriminate|].
  destruct (ascii_dec c d) as [->|]; [|discriminate].
  simpl. f_equal. now apply IH.
Qed.

Lemma prefix_head o os c r : o <> c -> String.prefix (String o os) (String c r) = false.
Proof. intros H. simpl. destruct (ascii_dec o c); [contradiction | reflexivity]. Qed.

Lemma mem_head o c r : Str.mem o (String c r) = false -> o <> c /\ Str.mem o r = false.
Proof.
  simpl. intros H. apply orb_false_iff in H as [Hc Hr].
  split; [|exact Hr]. intros ->. now rewrite Ascii.eqb_refl in Hc.
Qed.

Lemma length_drop k s : String.length (Str.drop k s) <= String.length s.
Proof.
  revert k. induction s as [|c s IH]; intros [|k]; simpl; try lia.
  specialize (IH k). lia.
Qed.

Variables (old new : string).

(** Passing over [a] takes [length a] steps of the skip counter. *)
Lemma replace_scan_skip a r :
  Str.replace_scan old new (String.length a) (a ++ r) = Str.replace_scan old new 0 r.
Proof. induction a as [|c a IH]; simpl; [reflexivity | exact IH]. Qed.

Hypothesis old_not_empty : Str.truthy old = true.

(** A match at the front is replaced and the scan goes on behind it. *)
Lemma replace_match r : Str.replace old new (old ++ r) = new ++ Str.replace old new r.
Proof.
  unfold Str.replace. destruct old as [|o os] eqn:E; [discriminate|].
  cbn [append Str.replace_scan].
  change (String o (os ++ r)) with (String o os ++ r).
  rewrite prefix_append.
  replace (String.length (String o os) - 1) with (String.length os)
    by (cbn [String.length]; lia).
  rewrite <- E. now rewrite replace_scan_skip.
Qed.

(** Without a match at the front one character is copied. *)
Lemma replace_step c r :
  String.prefix old (String c r) = false ->
  Str.replace old new (String c r) = String c (Str.replace old new r).
Proof.
  unfold Str.replace. destruct old as [|o os] eqn:E; [discriminate|].
  intros H. cbn [Str.replace_scan]. now rewrite H.
Qed.

Lemma replace_empty : Str.replace old new "" = "".
Proof. unfold Str.replace. now destruct old. Qed.

(** Text in which [old] cannot start is copied. *)
Lemma replace_inert o os s r :
  old = String o os -> Str.mem o s = false ->
  Str.replace old new (s ++ r) = s ++ Str.replace old new r.
Proof.
  intros E. induction s as [|c s IH]; intros H; [reflexivity|].
  apply mem_head in H as [Hc Hs]. cbn [append].
  rewrite replace_step by (rewrite E; now apply prefix_head).
  now rewrite IH.
Qed.

(** A string without [old] is returned as it is. *)
Lemma replace_absent s : Str.contains old s = false -> Str.replace old new s = s.
Proof.
  induction s as [|c s IH]; intros H; [apply replace_empty|].
  cbn [Str.contains] in H. apply orb_false_iff in H as [Hp Hs].
  rewrite replace_step by exact Hp. now rewrite IH.
Qed.

(** The scan of [replace] as an induction principle. *)
Lemma replace_ind (P : string -> Prop) :
  P "" ->
  (forall c r, String.prefix old (String c r) = false -> P r -> P (String c r)) ->
  (forall r, P r -> P (old ++ r)) ->
  forall s, P s.
Proof.
  intros Hnil Hstep Hmatch s.
  remember (String.length s) as n eqn:En.
  revert s En. induction n as [n IH] using lt_wf_ind. intros s En.
  destruct s as [|c r]; [exact Hnil|].
  destruct (String.prefix old (String c r)) eqn:Hp.
  - apply prefix_split in Hp. rewrite Hp. apply Hmatch.
    apply (IH (String.length (Str.drop (String.length old) (String c r)))); [|reflexivity].
    subst n. destruct old as [|o os]; [discriminate|]. cbn [String.length Str.drop].
    pose proof (length_drop (String.length os) r). lia.
  - apply Hstep; [exact Hp|]. apply (IH (String.length r)); [subst n; simpl; lia | reflexivity].
Qed.

End ReplaceFacts.

Section PersonalizeFacts.

Variable name : string.

Lemma plain_text s : plain (Text s) = true -> Str.mem "{" s = false.
Proof. unfold plain. now destruct (Str.mem "{" s). Qed.

Lemma pass_cap ps :
  forallb plain ps = true ->
  Str.replace "{{Name}}" name (template_of ps) = template_of (map (cap_filled name) ps).
Proof.
  induction ps as [|p ps IH]; [reflexivity|].
  cbn [forallb map template_of]. intros H. apply andb_true_iff in H as [Hp Hps].
  destruct p as [s| |]; cbn [written cap_filled].
  - rewrite (replace_inert "{{Name}}" name eq_refl "{" "{Name}}") by
      (reflexivity || now apply plain_text).
    now rewrite IH.
  - rewrite <- IH by exact Hps. reflexivity.
  - rewrite replace_match by reflexivity. now rewrite IH.
Qed.

Lemma pass_small qs :
  forallb plain qs = true -> forallb no_cap qs = true ->
  Str.replace "{{name}}" name (template_of qs) = fill name qs.
Proof.
  induction qs as [|p qs IH]; [reflexivity|].
  cbn [forallb template_of fill]. intros H N.
  apply andb_true_iff in H as [Hp Hqs]. apply andb_true_iff in N as [Np Nqs].
  destruct p as [s| |]; cbn [written]; try discriminate.
  - rewrite (replace_inert "{{name}}" name eq_refl "{" "{name}}") by
      (reflexivity || now apply plain_text).
    now rewrite IH.
  - rewrite replace_match by reflexivity. now rewrite IH.
Qed.

Lemma cap_filled_pieces ps :
  Str.mem "{" name = false -> forallb plain ps = true ->
  forallb plain (map (cap_filled name) ps) = true
  /\ forallb no_cap (map (cap_filled name) ps) = true
  /\ fill name (map (cap_filled name) ps) = fill name ps.
Proof.
  intros Hn. induction ps as [|p ps IH]; [now repeat split|].
  cbn [forallb map fill]. intros H. apply andb_true_iff in H as [Hp Hps].
  destruct (IH Hps) as (I1 & I2 & I3).
  destruct p as [s| |]; cbn [cap_filled plain no_cap fill] in *;
    rewrite ?Hn, ?Hp, ?I1, ?I2, ?I3; now repeat split.
Qed.

Lemma substitute_inert s r :
  Str.mem "{" s = false ->
  Spec.substitute name 0 (s ++ r) = s ++ Spec.substitute name 0 r.
Proof.
  induction s as [|c s IH]; intros H; [reflexivity|].
  apply mem_head in H as [Hc Hs]. cbn [append Spec.substitute].
  rewrite !prefix_head by exact Hc. cbn [orb]. now rewrite IH.
Qed.

Lemma spec_fill ps :
  forallb plain ps = true -> Spec.personalize (template_of ps) name = fill name ps.
Proof.
  unfold Spec.personalize.
  induction ps as [|p ps IH]; [reflexivity|].
  cbn [forallb template_of fill]. intros H. apply andb_true_iff in H as [Hp Hps].
  destruct p as [s| |]; cbn [written].
  - rewrite substitute_inert by now apply plain_text. now rewrite IH.
  - rewrite <- IH by exact Hps. simpl. now rewrite prefix_nil.
  - rewrite <- IH by exact Hps. simpl. now rewrite prefix_nil.
Qed.

End PersonalizeFacts.

(** C4, as the code has it. For every template and every name the
    substitution is two passes, the capital token first and the small one
    over the result of the first, and a template that holds neither token
    is returned unchanged, so no other spelling and no other token is
    touched.  The second pass reads again what the first one wrote: the
    capital token alone becomes the name with its own small tokens
    replaced, and in a template made of the two tokens and of text without
    an opening brace the second pass runs over the template with the name
    in the place of every capital token.  When the name has no opening
    brace either, every token, of either spelling, is replaced by the name
    as it is and the text is kept, which is also what one pass in the words
    of the specification gives. *)
Theorem personalize_fills_tokens (ps : list piece) (name : string) :
  (forall t, personalize t name
             = Str.replace "{{name}}" name (Str.replace "{{Name}}" name t))
  /\ (forall t, Str.contains "{{name}}" t = false -> Str.contains "{{Name}}" t = false ->
        personalize t name = t)
  /\ personalize "{{Name}}" name = Str.replace "{{name}}" name name
  /\ (forallb plain ps = true ->
      personalize (template_of ps) name
      = Str.replace "{{name}}" name (template_of (map (cap_filled name) ps)))
  /\ (forallb plain ps = true ->
      Str.mem "{" name = false ->
      personalize (template_of ps) name = fill name ps
      /\ personalize (template_of ps) name = Spec.personalize (template_of ps) name).
Proof.
  split; [reflexivity|].
  split.
  { intros t Hsmall Hcap. unfold personalize.
    rewrite (replace_absent "{{Name}}" name eq_refl t Hcap).
    now apply replace_absent. }
  split.
  { unfold personalize.
    change "{{Name}}" with ("{{Name}}" ++ "") at 2.
    rewrite replace_match by reflexivity.
    now rewrite replace_empty, append_nil_r by reflexivity. }
  split.
  { intros Hps. unfold personalize. now rewrite pass_cap. }
  intros Hps Hn.
  assert (E : personalize (template_of ps) name = fill name ps).
  { unfold personalize. rewrite pass_cap by exact Hps.
    destruct (cap_filled_pieces name ps Hn Hps) as (H1 & H2 & H3).
    rewrite pass_small by assumption. exact H3. }
  split; [exact E|]. now rewrite E, spec_fill.
Qed.

(** The statement of C4 at a letter with both tokens and the name Alice. *)
Lemma personalize_fills_tokens_witness :
  personalize "Dear {{Name}}, your code {{name}}-1 is ready." "Alice"
  = "Dear Alice, your code Alice-1 is ready.".
Proof.
  exact (proj1 (proj2 (proj2 (proj2 (proj2
                  (personalize_fills_tokens
                     [Text "Dear "; NameTokenCap; Text ", your code "; NameToken;
                      Text "-1 is ready."] "Alice"))))
                  eq_refl eq_refl)).
Defined.

(** C4, as claimed, fails: a small token inside the name is replaced again
    by the second pass, where one pass leaves the name as it is. *)
Lemma personalize_rescans_name :
  personalize "Hi {{Name}}!" "a{{name}}b" = "Hi aa{{name}}bb!"
  /\ Spec.personalize "Hi {{Name}}!" "a{{name}}b" = "Hi a{{name}}b!".
Proof. split; reflexivity. Qed.

Section CompactFacts.

(** The three ways the compaction after the markdown conversion can meet a
    text: at its end, at a match, at any other character. *)
Lemma compact_cases s :
  (s = "" /\ Str.replace gt_lf_lt "><" s = "")
  \/ (exists r, s = gt_lf_lt ++ r
                /\ Str.replace gt_lf_lt "><" s = "><" ++ Str.replace gt_lf_lt "><" r)
  \/ (exists c r, s = String c r /\ String.prefix gt_lf_lt s = false
                  /\ Str.replace gt_lf_lt "><" s = String c (Str.replace gt_lf_lt "><" r)).
Proof.
  destruct s as [|c r]; [left; now split|].
  destruct (String.prefix gt_lf_lt (String c r)) eqn:Hp.
  - right; left. exists (Str.drop 3 (String c r)).
    apply prefix_split in Hp. split; [exact Hp|].
    rewrite Hp at 1. now rewrite replace_match.
  - right; right. exists c, r.
    split; [reflexivity|]. split; [reflexivity|].
    now rewrite replace_step.
Qed.

(** The compacted text starts with a newline and [<] only where the text
    itself does. *)
Lemma compact_front r :
  String.prefix (String LF "<") (Str.replace gt_lf_lt "><" r) = true ->
  String.prefix (String LF "<") r = true.
Proof.
  destruct (compact_cases r) as [[-> ->] | [(r1 & -> & ->) | (d & r1 & -> & Hp & ->)]];
    [intros H; now vm_compute in H | intros H; now vm_compute in H |].
  cbn [String.prefix]. destruct (ascii_dec LF d) as [<-|]; [|discriminate].
  destruct (compact_cases r1) as [[-> ->] | [(r2 & -> & ->) | (e & r2 & -> & Hp2 & ->)]];
    [discriminate | cbn [append String.prefix]; now destruct (ascii_dec "<" ">") |].
  cbn [String.prefix]. destruct (ascii_dec "<" e) as [<-|]; [|discriminate].
  intros _. apply prefix_nil.
Qed.

(** After the compaction no [>] is followed by a newline and [<]. *)
Lemma compact_clean s : Str.contains gt_lf_lt (Str.replace gt_lf_lt "><" s) = false.
Proof.
  induction s as [ | c r Hp IH | r IH ] using (replace_ind gt_lf_lt eq_refl).
  - reflexivity.
  - rewrite replace_step by (reflexivity || assumption).
    cbn [Str.contains]. rewrite IH, orb_false_r.
    destruct (String.prefix gt_lf_lt (String c (Str.replace gt_lf_lt "><" r))) eqn:E;
      [|reflexivity].
    rewrite <- Hp. symmetry.
    unfold gt_lf_lt in E |- *. cbn [String.prefix] in E |- *.
    destruct (ascii_dec ">" c); [|discriminate].
    now apply compact_front.
  - rewrite replace_match by reflexivity.
    simpl. simpl in IH. exact IH.
Qed.

End CompactFacts.

Section BodyFacts.

Lemma contains_suffix p a r : Str.contains p (a ++ r) = false -> Str.contains p r = false.
Proof.
  induction a as [|c a IH]; [trivial|].
  cbn [append Str.contains]. intros H. apply orb_false_iff in H as [_ H]. now apply IH.
Qed.

Lemma contains_behind a x :
  Str.mem ">" a = false -> Str.contains gt_lf_lt (a ++ x) = Str.contains gt_lf_lt x.
Proof.
  induction a as [|c a IH]; intros H; [reflexivity|].
  apply mem_head in H as [Hc Ha]. cbn [append Str.contains].
  unfold gt_lf_lt at 1. rewrite prefix_head by exact Hc. now rewrite IH.
Qed.

Variables (old new : string).
Hypothesis old_not_empty : Str.truthy old = true.
Hypothesis new_not_empty : Str.truthy new = true.
Hypothesis new_no_gt : Str.mem ">" new = false.
Hypothesis new_no_lf : Str.mem LF new = false.
Hypothesis new_no_lt : Str.mem "<" new = false.

(** The three ways a replacement can meet a text. *)
Lemma replace_cases s :
  (s = "" /\ Str.replace old new s = "")
  \/ (exists r, s = old ++ r /\ Str.replace old new s = new ++ Str.replace old new r)
  \/ (exists c r, s = String c r
                  /\ Str.replace old new s = String c (Str.replace old new r)).
Proof.
  destruct s as [|c r]; [left; split; [reflexivity | now apply replace_empty]|].
  destruct (String.prefix old (String c r)) eqn:Hp.
  - right; left. exists (Str.drop (String.length old) (String c r)).
    apply prefix_split in Hp. split; [exact Hp|].
    rewrite Hp at 1. now apply replace_match.
  - right; right. exists c, r. split; [reflexivity | now apply replace_step].
Qed.

Lemma new_front c : Str.mem c new = false -> forall x y, String.prefix (String c x) (new ++ y) = false.
Proof.
  intros Hc x y. destruct new as [|n0 n']; [discriminate|].
  apply mem_head in Hc as [Hc _]. cbn [append]. now apply prefix_head.
Qed.

(** After a replacement by [new] the text starts with a newline and [<]
    only where it did before. *)
Lemma replace_front r :
  String.prefix (String LF "<") (Str.replace old new r) = true ->
  String.prefix (String LF "<") r = true.
Proof.
  destruct (replace_cases r) as [[-> ->] | [(r1 & -> & ->) | (d & r1 & -> & ->)]].
  - discriminate.
  - now rewrite (new_front LF new_no_lf).
  - cbn [String.prefix]. destruct (ascii_dec LF d) as [<-|]; [|discriminate].
    destruct (replace_cases r1) as [[-> ->] | [(r2 & -> & ->) | (e & r2 & -> & ->)]].
    + discriminate.
    + now rewrite (new_front "<" new_no_lt).
    + cbn [String.prefix]. destruct (ascii_dec "<" e) as [<-|]; [|discriminate].
      intros _. apply prefix_nil.
Qed.

(** A replacement by a non-empty text without [>], newline and [<] brings
    no [>], newline, [<] into a text that had none. *)
Lemma replace_clean s :
  Str.contains gt_lf_lt s = false -> Str.contains gt_lf_lt (Str.replace old new s) = false.
Proof.
  induction s as [ | c r Hp IH | r IH ] using (replace_ind old old_not_empty).
  - now rewrite replace_empty.
  - cbn [Str.contains]. intros H. apply orb_false_iff in H as [Hfront Hr].
    rewrite replace_step by assumption.
    cbn [Str.contains]. rewrite (IH Hr), orb_false_r.
    destruct (String.prefix gt_lf_lt (String c (Str.replace old new r))) eqn:E;
      [|reflexivity].
    rewrite <- Hfront. symmetry.
    unfold gt_lf_lt in E |- *. cbn [String.prefix] in E |- *.
    destruct (ascii_dec ">" c); [|discriminate].
    now apply replace_front.
  - intros H. apply contains_suffix in H.
    rewrite replace_match by assumption.
    rewrite contains_behind by exact new_no_gt. now apply IH.
Qed.

End BodyFacts.

(** A name that is not empty and has no [>], newline or [<] keeps a
    template free of [>], newline, [<] through both passes. *)
Lemma personalize_clean template name :
  Str.truthy name = true ->
  Str.mem ">" name = false -> Str.mem LF name = false -> Str.mem "<" name = false ->
  Str.contains gt_lf_lt template = false ->
  Str.contains gt_lf_lt (personalize template name) = false.
Proof.
  intros Hne Hgt Hlf Hlt Ht. unfold personalize.
  apply replace_clean; try assumption; [reflexivity|].
  apply replace_clean; try assumption; reflexivity.
Qed.

(** C5, as the code has it. The template is converted exactly when the
    alternate-body flag is set and the message path ends in [.md]; the
    conversion is the markdown rendering followed by the replacement of
    every [>], newline, [<] by [><], after which the converted template
    holds no [>], newline, [<]; in every other case the template is the
    file's text.  Personalisation comes after the conversion: the body of a
    contact holds no [>], newline, [<] when the name is not empty and has
    no [>], newline or [<] itself, and, for any name, when the converted
    template has no token. *)
Theorem convert_message_markdown
    (markdown : string -> string) (html_body : bool) (message_path message : string) :
  convert_message markdown html_body message_path message
    = (if html_body && Str.endswith message_path ".md"
       then Str.replace gt_lf_lt "><" (markdown message)
       else message)
  /\ Str.contains gt_lf_lt (Str.replace gt_lf_lt "><" (markdown message)) = false
  /\ (forall name : string,
        let template := convert_message markdown true (message_path ++ ".md") message in
        Str.contains gt_lf_lt template = false
        /\ (Str.contains "{{name}}" template = false ->
            Str.contains "{{Name}}" template = false ->
            Str.contains gt_lf_lt (personalize template name) = false)
        /\ (Str.truthy name = true ->
            Str.mem ">" name = false -> Str.mem LF name = false ->
            Str.mem "<" name = false ->
            Str.contains gt_lf_lt (personalize template name) = false)).
Proof.
  assert (Hmd : forall p, Str.endswith (p ++ ".md") ".md" = true).
  { induction p as [|c p IH]; [reflexivity|].
    cbn [append Str.endswith]. now rewrite IH, orb_true_r. }
  split; [unfold convert_message; now destruct html_body, (Str.endswith message_path ".md")|].
  split; [apply compact_clean|].
  intros name template. subst template. unfold convert_message. rewrite Hmd.
  split; [apply compact_clean|]. split.
  - intros Hsmall Hcap. unfold personalize.
    rewrite (replace_absent "{{Name}}" name eq_refl _ Hcap).
    rewrite (replace_absent "{{name}}" name eq_refl _ Hsmall).
    apply compact_clean.
  - intros Hne Hgt Hlf Hlt. apply personalize_clean; try assumption. apply compact_clean.
Qed.

(** The statement of C5 at a one-line markdown message and the name Alice. *)
Lemma convert_message_markdown_witness :
  Str.contains gt_lf_lt
    (personalize (convert_message md_paragraph true "message.md" "Hello {{name}}") "Alice")
  = false.
Proof.
  exact (proj2 (proj2 (proj2 (proj2
                  (convert_message_markdown md_paragraph true "message" "Hello {{name}}"))
                  "Alice"))
               eq_refl eq_refl eq_refl eq_refl).
Defined.

(** C5, as claimed, fails for the body of a link: the name is substituted
    after the compaction, so a name that is a newline puts one between the
    two tags of the paragraph that holds the token. *)
Lemma newline_between_tags_in_body :
  convert_message md_paragraph true "message.md" "{{name}}" = "<p>{{name}}</p>"
  /\ personalize (convert_message md_paragraph true "message.md" "{{name}}")
       (String LF EmptyString)
     = "<p>" ++ String LF "</p>"
  /\ Str.contains gt_lf_lt
       (personalize (convert_message md_paragraph true "message.md" "{{name}}")
          (String LF EmptyString)) = true.
Proof. repeat split; reflexivity. Qed.

Section CsvFacts.

Import Csv.

Lemma key_eqb_eq a b : key_eqb a b = true <-> a = b.
Proof.
  destruct a as [x|], b as [y|]; simpl; try (split; congruence).
  rewrite String.eqb_eq. split; congruence.
Qed.

Lemma get_set k k' v d :
  get k (set k' v d) = if key_eqb k' k then Some v else get k d.
Proof.
  induction d as [|[k0 v0] d IH]; [reflexivity|].
  cbn [set get]. destruct (key_eqb k0 k') eqn:E0.
  - apply key_eqb_eq in E0 as ->. cbn [get]. now destruct (key_eqb k' k).
  - cbn [get]. rewrite IH. destruct (key_eqb k0 k) eqn:E1; [|reflexivity].
    apply key_eqb_eq in E1 as ->.
    destruct (key_eqb k' k) eqn:E2; [|reflexivity].
    apply key_eqb_eq in E2 as ->.
    assert (E : key_eqb k k = true) by now apply key_eqb_eq.
    congruence.
Qed.

Lemma has_set k k' v d : has k (set k' v d) = key_eqb k' (KStr k) || has k d.
Proof. unfold has. rewrite get_set. now destruct (key_eqb k' (KStr k)). Qed.

Lemma has_zip_into k fieldnames : forall fields d,
  has k (zip_into fieldnames fields d)
  = existsb (String.eqb k) (firstn (List.length fields) fieldnames) || has k d.
Proof.
  induction fieldnames as [|f fs IH]; intros fields d.
  - now rewrite firstn_nil.
  - destruct fields as [|x xs]; [reflexivity|].
    cbn [zip_into List.length firstn existsb]. rewrite IH, has_set.
    cbn [key_eqb]. rewrite (String.eqb_sym f k).
    now destruct (String.eqb k f), (existsb (String.eqb k) (firstn (List.length xs) fs)).
Qed.

Lemma has_restval k keys : forall d,
  has k (fold_left (fun d key => set (KStr key) VNone d) keys d)
  = existsb (String.eqb k) keys || has k d.
Proof.
  induction keys as [|f fs IH]; intros d; [reflexivity|].
  cbn [fold_left existsb]. rewrite IH, has_set. cbn [key_eqb].
  rewrite (String.eqb_sym f k).
  now destruct (String.eqb k f), (existsb (String.eqb k) fs).
Qed.

(** A row has exactly the keys of the header, whatever its fields. *)
Lemma has_dict_row k fieldnames fields :
  has k (dict_row fieldnames fields) = existsb (String.eqb k) fieldnames.
Proof.
  unfold dict_row.
  destruct (Nat.ltb_spec (List.length fieldnames) (List.length fields)) as [Hlt|Hge].
  - rewrite has_set, has_zip_into. cbn [key_eqb orb].
    rewrite firstn_all2 by lia. apply orb_false_r.
  - destruct (Nat.ltb_spec (List.length fields) (List.length fieldnames)) as [Hlt|Hle].
    + rewrite has_restval, has_zip_into.
      rewrite <- (firstn_skipn (List.length fields) fieldnames) at 3.
      rewrite existsb_app. unfold has. cbn [get]. rewrite orb_false_r. apply orb_comm.
    + rewrite has_zip_into, firstn_all2 by lia. apply orb_false_r.
Qed.

Lemma filter_const {A} (b : bool) (p : A -> bool) (l : list A) :
  (forall x, In x l -> p x = b) -> filter p l = if b then l else [].
Proof.
  intros H. induction l as [|x l IH]; [now destruct b|].
  cbn [filter]. rewrite (H x (or_introl eq_refl)), IH by (intros y Hy; apply H; now right).
  now destruct b.
Qed.

(** The filter of [read_csv] looks at the header only. *)
Lemma read_rows_header fieldnames rest :
  read_rows (fieldnames :: rest)
  = if existsb (String.eqb "email") fieldnames && existsb (String.eqb "name") fieldnames
    then DictReader (fieldnames :: rest)
    else [].
Proof.
  unfold read_rows. apply filter_const.
  intros row Hrow. cbn [DictReader] in Hrow.
  apply in_map_iff in Hrow as (fields & <- & _).
  now rewrite !has_dict_row.
Qed.

End CsvFacts.

(** C6, on the code. Every row that [DictReader] yields carries all the
    columns of the header, a missing field as [None], so the filter keeps
    all rows when the header names both columns and none otherwise: of
    three rows after such a header, one without an email field, all three
    are kept, and the loop of [main] then fails on the [None]. *)
Theorem read_rows_keeps_incomplete_row :
  (forall fieldnames rest,
     read_rows (fieldnames :: rest)
     = if existsb (String.eqb "email") fieldnames && existsb (String.eqb "name") fieldnames
       then Csv.DictReader (fieldnames :: rest)
       else [])
  /\ read_rows [["name"; "email"]; ["Alice"; "alice@example.com"]; ["Bob"];
                ["Carol"; "carol@example.com"]]
     = [ [(Csv.KStr "name", Csv.VStr "Alice"); (Csv.KStr "email", Csv.VStr "alice@example.com")];
         [(Csv.KStr "name", Csv.VStr "Bob"); (Csv.KStr "email", Csv.VNone)];
         [(Csv.KStr "name", Csv.VStr "Carol"); (Csv.KStr "email", Csv.VStr "carol@example.com")] ]
  /\ List.length (read_rows [["name"; "email"]; ["Alice"; ""]; ["Bob"; "bob@example.com"];
                             [""; "carol@example.com"]]) = 3
  /\ render_loop "Subject" "Hello {{name}}" [] false 0
       (read_rows [["name"; "email"]; ["Alice"; "alice@example.com"]; ["Bob"];
                   ["Carol"; "carol@example.com"]]) html_head
     = Raise AttributeError.
Proof.
  split; [exact read_rows_header|]. repeat split; reflexivity.
Qed.

Section DriverFacts.

Variable markdown : string -> string.
Variable csv_reader : string -> result (list (list string)).

Lemma missing_args_required args :
  missing_args args = map fst (filter (fun p => negb (given (snd p))) (required args)).
Proof.
  unfold missing_args, required. cbn [filter snd].
  now destruct (given (contacts args)), (given (message args)), (given (subject args)).
Qed.

Lemma main_missing w args :
  missing_args args <> [] ->
  main markdown csv_reader w args
  = Exit 1 ""
      (println ("Error: Missing required arguments: " ++ Str.join ", " (missing_args args))
       ++ println "Use --help for usage information.")
      None.
Proof. unfold main. destruct (missing_args args); [congruence | reflexivity]. Qed.

Lemma absent_missing args :
  contacts args = None \/ message args = None \/ subject args = None ->
  missing_args args <> [].
Proof.
  unfold missing_args. intros [H | [H | H]]; rewrite H; cbn [given negb];
    destruct (given (contacts args)), (given (message args)), (given (subject args));
    discriminate.
Qed.

End DriverFacts.

(** C7. When one of the contacts path, the message path and the subject is
    absent, the run prints nothing to standard output and writes no file,
    prints to the error stream the line that lists, joined with a comma and
    a space and in the order contacts, message, subject, exactly the
    required arguments that are not given, then the usage hint, and exits
    with status 1; with contacts and message given and the subject absent
    the line names [--subject] alone. *)
Theorem main_reports_missing_arguments
    (markdown : string -> string) (csv_reader : string -> result (list (list string)))
    (w : World) (args : Args) :
  contacts args = None \/ message args = None \/ subject args = None ->
  main markdown csv_reader w args
  = Exit 1 ""
      (println ("Error: Missing required arguments: "
                ++ Str.join ", "
                     (map fst (filter (fun p => negb (given (snd p))) (required args))))
       ++ println "Use --help for usage information.")
      None
  /\ (given (contacts args) = true -> given (message args) = true ->
      main markdown csv_reader w args
      = Exit 1 ""
          (println "Error: Missing required arguments: --subject"
           ++ println "Use --help for usage information.")
          None).
Proof.
  intros Habs. pose proof (absent_missing args Habs) as Hne.
  rewrite (main_missing markdown csv_reader w args Hne).
  split; [now rewrite missing_args_required|].
  intros Hc Hm. revert Hne. unfold missing_args. rewrite Hc, Hm. cbn [negb app].
  destruct (given (subject args)); cbn [negb]; [intros H; now contradiction H | reflexivity].
Qed.

(** The statement of C7 at a run with contacts and message given and no
    subject. *)
Lemma main_reports_missing_arguments_witness :
  main md_paragraph sample_reader (sample_world 0 (fun _ => None))
    {| contacts := Some "contacts.csv"; message := Some "message.md"; subject := None;
       output := None; cc := ""; html_body := false |}
  = Exit 1 ""
      (println "Error: Missing required arguments: --subject"
       ++ println "Use --help for usage information.")
      None.
Proof.
  exact (proj2 (main_reports_missing_arguments md_paragraph sample_reader
                  (sample_world 0 (fun _ => None))
                  {| contacts := Some "contacts.csv"; message := Some "message.md";
                     subject := None; output := None; cc := ""; html_body := false |}
                  (or_intror (or_intror eq_refl)))
               eq_refl eq_refl).
Defined.

(** C10. The check of the required arguments tests the truth value of each,
    so an argument given as the empty string is reported like one that was
    left out: the run with [--subject ''] ends as the run without
    [--subject], and likewise for the contacts and message paths; with
    contacts and message given it names [--subject] alone as missing and
    exits with status 1. *)
Theorem main_empty_argument_is_missing
    (markdown : string -> string) (csv_reader : string -> result (list (list string)))
    (w : World) (c m s o : option string) (ccs : string) (h : bool) :
  given (Some "") = false
  /\ main markdown csv_reader w
       {| contacts := c; message := m; subject := Some "";
          output := o; cc := ccs; html_body := h |}
     = main markdown csv_reader w
         {| contacts := c; message := m; subject := None;
            output := o; cc := ccs; html_body := h |}
  /\ main markdown csv_reader w
       {| contacts := Some ""; message := m; subject := s;
          output := o; cc := ccs; html_body := h |}
     = main markdown csv_reader w
         {| contacts := None; message := m; subject := s;
            output := o; cc := ccs; html_body := h |}
  /\ main markdown csv_reader w
       {| contacts := c; message := Some ""; subject := s;
          output := o; cc := ccs; html_body := h |}
     = main markdown csv_reader w
         {| contacts := c; message := None; subject := s;
            output := o; cc := ccs; html_body := h |}
  /\ (given c = true -> given m = true ->
      main markdown csv_reader w
        {| contacts := c; message := m; subject := Some "";
           output := o; cc := ccs; html_body := h |}
      = Exit 1 ""
          (println "Error: Missing required arguments: --subject"
           ++ println "Use --help for usage information.")
          None).
Proof.
  do 4 (split; [reflexivity|]).
  intros Hc Hm. unfold main, missing_args.
  cbn [contacts message subject]. now rewrite Hc, Hm.
Qed.

Section PageFacts.

Variables (subject message : string) (cc_list : list string) (html_body : bool).

Lemma render_contact_valid i contact name email :
  name_and_email contact = Some (name, email) ->
  render_contact subject message cc_list html_body i contact
  = Ok (contact_item subject message cc_list html_body i name email).
Proof.
  unfold name_and_email, render_contact, getitem, bind.
  destruct (Csv.get (Csv.KStr "name") contact) as [[n| |]|]; try discriminate.
  destruct (Csv.get (Csv.KStr "email") contact) as [[e| |]|]; try discriminate.
  now intros [= -> ->].
Qed.

(** The loop appends one item per contact, numbered from [i] on. *)
Lemma render_loop_items contacts : forall pairs i html_lines,
  map name_and_email contacts = map Some pairs ->
  render_loop subject message cc_list html_body i contacts html_lines
  = Ok (html_lines ++ items_from subject message cc_list html_body i pairs)%list.
Proof.
  induction contacts as [|contact rest IH]; intros [|[name email] pairs] i html_lines H;
    try discriminate.
  - cbn [render_loop items_from]. now rewrite app_nil_r.
  - cbn [map] in H. injection H as Hc Hrest.
    cbn [render_loop items_from].
    rewrite (render_contact_valid i contact name email Hc). cbn [bind].
    rewrite (IH pairs (S i) _ Hrest). now rewrite <- app_assoc.
Qed.

Lemma items_from_length pairs : forall i,
  List.length (items_from subject message cc_list html_body i pairs) = List.length pairs.
Proof. induction pairs as [|[n e] pairs IH]; intros i; simpl; [reflexivity | now rewrite IH]. Qed.

Lemma items_from_nth pairs : forall i k name email,
  nth_error pairs k = Some (name, email) ->
  nth_error (items_from subject message cc_list html_body i pairs) k
  = Some (contact_item subject message cc_list html_body (i + k) name email).
Proof.
  induction pairs as [|[n e] pairs IH]; intros i [|k] name email H; try discriminate.
  - cbn in H. injection H as -> ->. cbn. now rewrite Nat.add_0_r.
  - cbn in H. cbn [items_from nth_error]. rewrite (IH (S i) k name email H).
    now rewrite Nat.add_succ_r.
Qed.


End PageFacts.



(** * Further properties of the link generator *)

Section LinkFacts.

Import Urllib.

Lemma mem_append c a b : Str.mem c (a ++ b) = Str.mem c a || Str.mem c b.
Proof.
  induction a as [|d a IH]; simpl; [reflexivity|].
  now rewrite IH, orb_assoc.
Qed.

Lemma all_weaken (p q : ascii -> bool) s :
  (forall c, p c = true -> q c = true) -> Str.all p s = true -> Str.all q s = true.
Proof.
  intros Hpq. induction s as [|c s IH]; simpl; [reflexivity|].
  intros H. apply andb_true_iff in H as [Hc Hs]. now rewrite (Hpq c Hc), IH.
Qed.

Lemma all_join p sep parts :
  Str.all p sep = true ->
  Forall (fun part => Str.all p part = true) parts ->
  Str.all p (Str.join sep parts) = true.
Proof.
  intros Hsep Hparts. induction Hparts as [|x l Hx Hl IH]; [reflexivity|].
  destruct l as [|y l]; [exact Hx|].
  change (Str.all p (x ++ sep ++ Str.join sep (y :: l)) = true).
  now rewrite !all_append, Hx, Hsep, IH.
Qed.

Lemma encoded_chars kv : Str.all query_char (encoded kv) = true.
Proof.
  assert (H : forall s, Str.all query_char (quote s) = true).
  { intros s. apply all_weaken with (p := quoted_char); [|apply quote_chars].
    intros c Hc. unfold query_char. now rewrite Hc. }
  unfold encoded. now rewrite !all_append, !H.
Qed.

(** An encoded dictionary is written with query characters only. *)
Lemma urlencode_chars (d : dict) : Str.all query_char (urlencode d) = true.
Proof.
  unfold urlencode. apply all_join; [reflexivity|].
  apply Forall_forall. intros part Hpart.
  apply in_map_iff in Hpart as (kv & <- & _). apply encoded_chars.
Qed.

Lemma query_char_ascii c : query_char c = true -> is_ascii c = true.
Proof. destruct c as [[] [] [] [] [] [] [] []]; vm_compute; congruence. Qed.

(** Two texts cut at the last occurrence of [c] are equal piece by piece. *)
Lemma append_last_inj c a b x y :
  Str.mem c x = false -> Str.mem c y = false ->
  a ++ String c x = b ++ String c y -> a = b /\ x = y.
Proof.
  intros Hx Hy. revert b. induction a as [|d a IH]; intros [|e b] H; cbn [append] in H.
  - injection H as H. now split.
  - injection H as _ H. rewrite H, mem_append in Hx. cbn [Str.mem] in Hx.
    rewrite Ascii.eqb_refl, orb_true_r in Hx. discriminate.
  - injection H as _ H. rewrite <- H, mem_append in Hy. cbn [Str.mem] in Hy.
    rewrite Ascii.eqb_refl, orb_true_r in Hy. discriminate.
  - injection H as -> H. destruct (IH b H) as [-> ->]. now split.
Qed.

Lemma quote_inj s t : quote s = quote t -> s = t.
Proof. intros H. apply (f_equal Query.unquote) in H. now rewrite !unquote_quote in H. Qed.

Lemma body_key_inj h h' : body_key h = body_key h' -> h = h'.
Proof. now destruct h, h'. Qed.

Lemma length_append a b : String.length (a ++ b) = String.length a + String.length b.
Proof. induction a as [|c a IH]; simpl; [reflexivity | now rewrite IH]. Qed.

Lemma quoter_length c :
  1 <= String.length (quoter c) <= 3.
Proof. unfold quoter, percent. destruct (always_safe c); simpl; lia. Qed.

Lemma quote_length s :
  String.length s <= String.length (quote s) <= 3 * String.length s.
Proof.
  rewrite quote_expand. induction s as [|c s IH]; simpl; [lia|].
  rewrite length_append. pose proof (quoter_length c). lia.
Qed.

End LinkFacts.

(** X1. The link determines what it was built from: two calls that return
    the same link were given the same recipient, subject, body and flag,
    the same comma-joined CC text, and either both or neither an empty CC
    list. *)
Theorem generate_mailto_injective
    (email subject body : string) (cc_list : list string) (use_html_body : bool)
    (email' subject' body' : string) (cc_list' : list string) (use_html_body' : bool) :
  generate_mailto email subject body cc_list use_html_body
  = generate_mailto email' subject' body' cc_list' use_html_body' ->
  email = email' /\ subject = subject' /\ body = body'
  /\ use_html_body = use_html_body'
  /\ Str.join "," cc_list = Str.join "," cc_list'
  /\ (cc_list = [] <-> cc_list' = []).
Proof.
  unfold generate_mailto. cbn zeta. intros H.
  cbn [append] in H. injection H as H.
  apply (append_last_inj "?") in H;
    try (apply all_mem with (p := query_char); [apply urlencode_chars | reflexivity]).
  destruct H as [He Hq]. apply (f_equal Query.pairs) in Hq.
  rewrite !mailto_pairs in Hq.
  injection Hq as Hs Hk Hb Hcc.
  apply quote_inj in Hs, Hb. apply body_key_inj in Hk.
  repeat split; try assumption.
  - destruct cc_list, cc_list'; try discriminate; [reflexivity|].
    injection Hcc as Hcc. now apply quote_inj.
  - intros ->. destruct cc_list'; [reflexivity | discriminate].
  - intros ->. destruct cc_list; [reflexivity | discriminate].
Qed.

(** The statement of X1 at one link with a CC address. *)
Lemma generate_mailto_injective_witness :
  "ann@example.com" = "ann@example.com" /\ "Hi" = "Hi" /\ "Dear Ann" = "Dear Ann"
  /\ true = true
  /\ Str.join "," ["boss@example.com"] = Str.join "," ["boss@example.com"]
  /\ (["boss@example.com"] = [] <-> ["boss@example.com"] = []).
Proof.
  exact (generate_mailto_injective
           "ann@example.com" "Hi" "Dear Ann" ["boss@example.com"] true
           "ann@example.com" "Hi" "Dear Ann" ["boss@example.com"] true eq_refl).
Defined.

(** X2. Whatever the subject, the body and the CC addresses hold, the query
    string of a link is written with unreserved characters, [%], [=] and
    [&] only: it is plain ASCII and holds no double quote, apostrophe,
    angle bracket, space, newline, [?] or [#]. *)
Theorem generate_mailto_query_characters
    (email subject body : string) (cc_list : list string) (use_html_body : bool) :
  let q := Urllib.urlencode (mailto_params subject body cc_list use_html_body) in
  generate_mailto email subject body cc_list use_html_body = "mailto:" ++ email ++ "?" ++ q
  /\ Str.all query_char q = true
  /\ Str.all is_ascii q = true
  /\ Str.all (fun c => negb (Str.mem c (DQ ++ "'<> ?#" ++ String LF EmptyString))) q = true.
Proof.
  intros q. split; [reflexivity|].
  split; [apply urlencode_chars|].
  split.
  - apply all_weaken with (p := query_char); [apply query_char_ascii | apply urlencode_chars].
  - apply all_weaken with (p := query_char); [|apply urlencode_chars].
    intros c. destruct c as [[] [] [] [] [] [] [] []]; vm_compute; congruence.
Qed.

(** X3. Lengths in bytes of the UTF-8 encoding: encoding a text gives at
    least as many bytes as the text has and at most three times as many, so
    a link without CC addresses has at most 27 bytes more than the
    recipient plus three times the subject and the body, and at least 22
    more than the three together. *)
Theorem generate_mailto_length
    (email subject body : string) (use_html_body : bool) :
  String.length subject <= String.length (Urllib.quote subject) <= 3 * String.length subject
  /\ String.length (generate_mailto email subject body [] use_html_body)
     <= 27 + String.length email + 3 * String.length subject + 3 * String.length body
  /\ 22 + String.length email + String.length subject + String.length body
     <= String.length (generate_mailto email subject body [] use_html_body).
Proof.
  pose proof (quote_length subject) as Hs. pose proof (quote_length body) as Hb.
  split; [exact Hs|].
  assert (E : String.length (generate_mailto email subject body [] use_html_body)
              = 22 + (if use_html_body then 5 else 0) + String.length email
                + String.length (Urllib.quote subject) + String.length (Urllib.quote body)).
  { unfold generate_mailto, Urllib.urlencode, mailto_params.
    destruct use_html_body; cbn [Urllib.dict_set String.eqb Ascii.eqb Bool.eqb map fst snd
                                  Str.join String.concat];
      replace (Urllib.quote "subject") with "subject" by reflexivity;
      [replace (Urllib.quote "html-body") with "html-body" by reflexivity
      |replace (Urllib.quote "body") with "body" by reflexivity];
      rewrite ?length_append; cbn [String.length]; rewrite ?length_append;
      cbn [String.length]; lia. }
  rewrite E. destruct use_html_body; lia.
Qed.

(** * Further properties of the page *)

Section LinkIdFacts.

Lemma mem_expand x f s :
  (forall c, Str.mem x (f c) = false) -> Str.mem x (Str.expand f s) = false.
Proof.
  intros Hf. induction s as [|c s IH]; simpl; [reflexivity|].
  now rewrite mem_append, Hf, IH.
Qed.

Lemma expand_avoids x f s :
  Str.mem x s = false -> (forall c, c <> x -> Str.mem x (f c) = false) ->
  Str.mem x (Str.expand f s) = false.
Proof.
  intros Hs Hf. induction s as [|c s IH]; simpl; [reflexivity|].
  apply mem_head in Hs as [Hc Hs].
  rewrite mem_append, IH by exact Hs. rewrite Hf by congruence. reflexivity.
Qed.

Lemma mem_single x c : Str.mem x (String c EmptyString) = Ascii.eqb x c.
Proof. simpl. apply orb_false_r. Qed.

(** Replacing a single character is a character-wise expansion. *)
Lemma replace_char o new s :
  Str.replace (String o EmptyString) new s
  = Str.expand (fun c => if Ascii.eqb c o then new else String c EmptyString) s.
Proof.
  unfold Str.replace. induction s as [|c s IH]; [reflexivity|].
  cbn [Str.replace_scan Str.expand String.prefix String.length Nat.sub].
  destruct (ascii_dec o c) as [->|Hne].
  - rewrite prefix_nil, Ascii.eqb_refl. now rewrite IH.
  - rewrite (proj2 (Ascii.eqb_neq c o)) by congruence. cbn [append]. now rewrite IH.
Qed.

Lemma digits_of_uint d : Str.all is_digit (NilEmpty.string_of_uint d) = true.
Proof. induction d; simpl; auto. Qed.

Lemma str_of_nat_digits i : Str.all is_digit (str_of_nat i) = true.
Proof. apply digits_of_uint. Qed.

Lemma str_of_nat_inj i j : str_of_nat i = str_of_nat j -> i = j.
Proof.
  unfold str_of_nat. intros H.
  apply (f_equal NilEmpty.uint_of_string) in H. rewrite !NilEmpty.usu in H.
  injection H as H. now apply DecimalNat.Unsigned.to_uint_inj.
Qed.

(** Two texts cut at the first occurrence of [c] are equal piece by piece. *)
Lemma append_first_inj c a b x y :
  Str.mem c a = false -> Str.mem c b = false ->
  a ++ String c x = b ++ String c y -> a = b /\ x = y.
Proof.
  revert b. induction a as [|d a IH]; intros [|e b] Ha Hb H; cbn [append] in H.
  - injection H as H. now split.
  - injection H as -> _. cbn [Str.mem] in Hb. now rewrite Ascii.eqb_refl in Hb.
  - injection H as <- _. cbn [Str.mem] in Ha. now rewrite Ascii.eqb_refl in Ha.
  - injection H as -> H. apply mem_head in Ha as [_ Ha]. apply mem_head in Hb as [_ Hb].
    destruct (IH b Ha Hb H) as [-> ->]. now split.
Qed.

End LinkIdFacts.

(** X4. The identifier of a list item holds no [@] and no [.], whatever the
    email address is: both are rewritten, [@] first. *)
Theorem link_id_sanitised (i : nat) (email : string) :
  Str.mem "@" (link_id i email) = false /\ Str.mem "." (link_id i email) = false.
Proof.
  unfold link_id. rewrite !mem_append, !replace_char.
  assert (Hd : forall c, is_digit c = false -> Str.mem c (str_of_nat i) = false).
  { intros c Hc. apply all_mem with (p := is_digit); [apply str_of_nat_digits | exact Hc]. }
  rewrite !Hd by reflexivity. cbn [Str.mem Ascii.eqb Bool.eqb orb].
  split.
  - apply expand_avoids.
    + apply mem_expand. intros c. destruct (Ascii.eqb_spec c "@") as [->|Hc]; [reflexivity|].
      rewrite mem_single. apply Ascii.eqb_neq. congruence.
    + intros c Hc. destruct (Ascii.eqb c "."); [reflexivity|].
      rewrite mem_single. apply Ascii.eqb_neq. congruence.
  - apply mem_expand. intros c. destruct (Ascii.eqb_spec c ".") as [->|Hc]; [reflexivity|].
    rewrite mem_single. apply Ascii.eqb_neq. congruence.
Qed.

(** X5. List items with different position numbers have different
    identifiers, whatever their email addresses are. *)
Theorem link_id_unique (i j : nat) (email email' : string) :
  link_id i email = link_id j email' -> i = j.
Proof.
  unfold link_id. intros H. cbn [append] in H. injection H as H.
  apply append_first_inj in H.
  - now apply str_of_nat_inj.
  - apply all_mem with (p := is_digit); [apply str_of_nat_digits | reflexivity].
  - apply all_mem with (p := is_digit); [apply str_of_nat_digits | reflexivity].
Qed.

(** The statement of X5 at two addresses that are rewritten alike. *)
Lemma link_id_unique_witness : 12 = 12.
Proof. exact (link_id_unique 12 12 "a.b@example.com" "a-dot-b@example.com" eq_refl). Defined.

(** * Further properties of the CC list *)

Section StripFacts.

Lemma rev_onto_append s acc : Str.rev_onto s acc = Str.rev s ++ acc.
Proof.
  unfold Str.rev. revert acc. induction s as [|c s IH]; intros acc; [reflexivity|].
  cbn [Str.rev_onto]. rewrite IH, (IH (String c "")). now rewrite append_assoc.
Qed.

Lemma rev_append a b : Str.rev (a ++ b) = Str.rev b ++ Str.rev a.
Proof.
  induction a as [|c a IH]; cbn [append].
  - now rewrite append_nil_r.
  - unfold Str.rev at 1 3. cbn [Str.rev_onto]. rewrite !rev_onto_append, IH.
    now rewrite append_assoc.
Qed.

Lemma rev_rev s : Str.rev (Str.rev s) = s.
Proof.
  induction s as [|c s IH]; [reflexivity|].
  unfold Str.rev at 2. cbn [Str.rev_onto]. rewrite rev_onto_append, rev_append, IH.
  reflexivity.
Qed.

Lemma rev_length s : String.length (Str.rev s) = String.length s.
Proof.
  induction s as [|c s IH]; [reflexivity|].
  unfold Str.rev. cbn [Str.rev_onto]. rewrite rev_onto_append, length_append, IH.
  simpl. lia.
Qed.

Lemma prefix_append_r p s t : String.prefix p s = true -> String.prefix p (s ++ t) = true.
Proof.
  revert s. induction p as [|c p IH]; intros s H; [apply prefix_nil|].
  destruct s as [|d s]; [discriminate|]. cbn [append String.prefix] in *.
  destruct (ascii_dec c d); [now apply IH | discriminate].
Qed.

Variable pats : list string.
Hypothesis pats_not_empty : forallb Str.truthy pats = true.

Lemma after_any_split s r :
  Str.after_any pats s = Some r ->
  exists p, In p pats /\ Str.truthy p = true /\ s = p ++ r.
Proof.
  revert pats_not_empty. induction pats as [|p ps IH]; [discriminate|].
  cbn [forallb Str.after_any]. intros Hne. apply andb_true_iff in Hne as [Hp Hps].
  destruct (String.prefix p s) eqn:E.
  - intros [= <-]. exists p. split; [now left|]. split; [exact Hp|].
    now apply prefix_split.
  - intros H. destruct (IH Hps H) as (q & Hq & Hq' & ->). exists q. split; [now right | now split].
Qed.

Lemma after_any_shorter s r :
  Str.after_any pats s = Some r -> String.length r < String.length s.
Proof.
  intros H. destruct (after_any_split s r H) as (p & _ & Hp & ->).
  rewrite length_append. destruct p; [discriminate | simpl; lia].
Qed.

Lemma after_any_append s t r :
  Str.after_any pats s = Some r -> Str.after_any pats (s ++ t) <> None.
Proof.
  clear pats_not_empty. induction pats as [|p ps IH]; [discriminate|].
  cbn [Str.after_any]. destruct (String.prefix p s) eqn:E.
  - intros _. now rewrite (prefix_append_r p s t E).
  - intros H. destruct (String.prefix p (s ++ t)); [discriminate | now apply IH].
Qed.

(** What is stripped is a front part of the text. *)
Lemma lstrip_any_suffix n s : exists pre, s = pre ++ Str.lstrip_any pats n s.
Proof.
  revert s. induction n as [|n IH]; intros s; [now exists ""|].
  cbn [Str.lstrip_any]. destruct (Str.after_any pats s) as [r|] eqn:E; [|now exists ""].
  destruct (after_any_split s r E) as (p & _ & _ & ->).
  destruct (IH r) as (pre & Hpre). exists (p ++ pre).
  rewrite append_assoc. now rewrite <- Hpre.
Qed.

(** With fuel for every character nothing is left to strip. *)
Lemma lstrip_any_done n s :
  String.length s <= n -> Str.after_any pats (Str.lstrip_any pats n s) = None.
Proof.
  revert s. induction n as [|n IH]; intros s Hn.
  - destruct s; [|simpl in Hn; lia]. cbn [Str.lstrip_any].
    destruct (Str.after_any pats "") as [r|] eqn:E; [|reflexivity].
    apply after_any_shorter in E. simpl in E. lia.
  - cbn [Str.lstrip_any]. destruct (Str.after_any pats s) as [r|] eqn:E; [|exact E].
    apply IH. apply after_any_shorter in E. lia.
Qed.

Lemma lstrip_any_fixed n s :
  Str.after_any pats s = None -> Str.lstrip_any pats n s = s.
Proof. intros H. destruct n; [reflexivity|]. cbn [Str.lstrip_any]. now rewrite H. Qed.

End StripFacts.

Section WhitespaceFacts.

Lemma lstrip_suffix s : exists pre, s = pre ++ Str.lstrip s.
Proof. apply lstrip_any_suffix. reflexivity. Qed.

Lemma lstrip_done s : Str.after_any (map Str.utf8 Str.whitespace) (Str.lstrip s) = None.
Proof. apply lstrip_any_done; [reflexivity | lia]. Qed.

Lemma rstrip_prefix s : exists post, s = Str.rstrip s ++ post.
Proof.
  unfold Str.rstrip.
  destruct (lstrip_any_suffix (map (fun cp => Str.rev (Str.utf8 cp)) Str.whitespace)
              eq_refl (String.length s) (Str.rev s)) as (pre & H).
  exists (Str.rev pre). rewrite <- rev_append, <- H. now rewrite rev_rev.
Qed.

Lemma rstrip_done s :
  Str.after_any (map (fun cp => Str.rev (Str.utf8 cp)) Str.whitespace)
    (Str.rev (Str.rstrip s)) = None.
Proof.
  unfold Str.rstrip. rewrite rev_rev. apply lstrip_any_done; [reflexivity|].
  rewrite rev_length. lia.
Qed.

Lemma rstrip_fixed s :
  Str.after_any (map (fun cp => Str.rev (Str.utf8 cp)) Str.whitespace) (Str.rev s) = None ->
  Str.rstrip s = s.
Proof.
  intros H. unfold Str.rstrip. rewrite lstrip_any_fixed by exact H. apply rev_rev.
Qed.

Lemma lstrip_fixed s :
  Str.after_any (map Str.utf8 Str.whitespace) s = None -> Str.lstrip s = s.
Proof. intros H. unfold Str.lstrip. now apply lstrip_any_fixed. Qed.

(** A trimmed text starts with no whitespace. *)
Lemma strip_front s : Str.after_any (map Str.utf8 Str.whitespace) (Str.strip s) = None.
Proof.
  unfold Str.strip. destruct (rstrip_prefix (Str.lstrip s)) as (post & H).
  destruct (Str.after_any (map Str.utf8 Str.whitespace) (Str.rstrip (Str.lstrip s)))
    as [r|] eqn:E; [|reflexivity].
  apply after_any_append with (t := post) in E. rewrite <- H in E.
  now rewrite lstrip_done in E.
Qed.

(** Trimming a trimmed text changes nothing. *)
Lemma strip_strip s : Str.strip (Str.strip s) = Str.strip s.
Proof.
  unfold Str.strip at 1. rewrite (lstrip_fixed _ (strip_front s)).
  unfold Str.strip. apply rstrip_fixed, rstrip_done.
Qed.

(** The trimmed text is a part of the text. *)
Lemma strip_part s : exists pre post, s = pre ++ Str.strip s ++ post.
Proof.
  destruct (lstrip_suffix s) as (pre & Hpre).
  destruct (rstrip_prefix (Str.lstrip s)) as (post & Hpost).
  exists pre, post. unfold Str.strip. now rewrite <- Hpost.
Qed.

Lemma strip_avoids c s : Str.mem c s = false -> Str.mem c (Str.strip s) = false.
Proof.
  destruct (strip_part s) as (pre & post & H). intros Hc.
  rewrite H, !mem_append in Hc. apply orb_false_iff in Hc as [_ Hc].
  now apply orb_false_iff in Hc as [Hc _].
Qed.

Lemma split_pieces sep s : Forall (fun piece => Str.mem sep piece = false) (Str.split sep s).
Proof.
  induction s as [|c s IH]; cbn [Str.split]; [now repeat constructor|].
  destruct (Ascii.eqb c sep) eqn:E; [constructor; [reflexivity | exact IH]|].
  destruct (Str.split sep s) as [|h t]; [now repeat constructor; simpl; rewrite Ascii.eqb_sym, E|].
  inversion IH as [|? ? Hh Ht]; subst. constructor; [|exact Ht].
  cbn [Str.mem]. now rewrite Ascii.eqb_sym, E, Hh.
Qed.

(** Addresses that [parse_cc] leaves as they are. *)
Lemma parse_cc_join (l : list string) :
  Forall (fun a => Str.truthy a = true /\ Str.mem "," a = false /\ Str.strip a = a) l ->
  parse_cc (Str.join "," l) = l.
Proof.
  intros H. rewrite parse_cc_filter.
  destruct l as [|a l]; [reflexivity|].
  rewrite split_join; [|discriminate|].
  - induction H as [|x xs (Hx & _ & Hs) _ IH]; [reflexivity|].
    cbn [map filter]. now rewrite Hs, Hx, IH.
  - apply Forall_forall. intros x Hx. rewrite Forall_forall in H. now apply H.
Qed.

Lemma parse_cc_clean cc :
  Forall (fun a => Str.truthy a = true /\ Str.mem "," a = false /\ Str.strip a = a)
    (parse_cc cc).
Proof.
  rewrite parse_cc_filter. apply Forall_forall. intros a Ha.
  apply filter_In in Ha as [Ha Ht]. apply in_map_iff in Ha as (piece & <- & Hp).
  split; [exact Ht|]. split; [|apply strip_strip].
  apply strip_avoids. pose proof (split_pieces "," cc) as Hall.
  rewrite Forall_forall in Hall. now apply Hall.
Qed.

End WhitespaceFacts.

(** X6. Every address of the CC list the driver builds from [--cc] is
    non-empty, holds no comma, and neither starts nor ends with whitespace
    (trimming it again changes nothing); the list is a fixed point of the
    parsing: joined with commas and parsed again it comes back unchanged. *)
Theorem parse_cc_normal_form (cc : string) :
  Forall (fun a => Str.truthy a = true /\ Str.mem "," a = false /\ Str.strip a = a
                   /\ Str.after_any (map Str.utf8 Str.whitespace) a = None
                   /\ Str.after_any (map (fun cp => Str.rev (Str.utf8 cp)) Str.whitespace)
                        (Str.rev a) = None)
    (parse_cc cc)
  /\ parse_cc (Str.join "," (parse_cc cc)) = parse_cc cc.
Proof.
  split; [|apply parse_cc_join, parse_cc_clean].
  pose proof (parse_cc_clean cc) as H. rewrite Forall_forall in H |- *.
  intros a Ha. destruct (H a Ha) as (H1 & H2 & H3).
  repeat split; try assumption.
  - rewrite <- H3. apply strip_front.
  - rewrite <- H3. unfold Str.strip. apply rstrip_done.
Qed.

(** X7. A list of non-empty addresses without commas or surrounding
    whitespace, given to [--cc] joined with commas, is the CC list the
    driver builds. *)
Theorem parse_cc_round_trip (l : list string) :
  Forall (fun a => Str.truthy a = true /\ Str.mem "," a = false /\ Str.strip a = a) l ->
  parse_cc (Str.join "," l) = l.
Proof. apply parse_cc_join. Qed.

(** The statement of X7 at two addresses. *)
Lemma parse_cc_round_trip_witness :
  parse_cc "admin@company.com,manager@company.com"
  = ["admin@company.com"; "manager@company.com"].
Proof.
  apply (parse_cc_round_trip ["admin@company.com"; "manager@company.com"]).
  repeat constructor.
Defined.

(** X8. For a non-empty CC list of addresses without commas, a mail client
    that decodes the [cc] parameter of the link and splits it at the commas
    gets the CC list back, in order. *)
Theorem generate_mailto_cc_recoverable
    (email subject body : string) (cc_list : list string) (use_html_body : bool) :
  cc_list <> [] ->
  Forall (fun a => Str.mem "," a = false) cc_list ->
  option_map (Str.split ",")
    (Query.get "cc" (Urllib.urlencode (mailto_params subject body cc_list use_html_body)))
  = Some cc_list.
Proof.
  intros Hne Hall. unfold Query.get, Query.raw. rewrite mailto_pairs.
  destruct cc_list as [|a l]; [congruence|].
  destruct use_html_body; cbn [Query.assoc body_key String.eqb Ascii.eqb Bool.eqb option_map];
    rewrite unquote_quote; f_equal; now apply split_join.
Qed.

(** The statement of X8 at the two addresses of the usage text. *)
Lemma generate_mailto_cc_recoverable_witness :
  option_map (Str.split ",")
    (Query.get "cc"
       (Urllib.urlencode
          (mailto_params "Subject Line" "Hello"
             ["admin@company.com"; "manager@company.com"] false)))
  = Some ["admin@company.com"; "manager@company.com"].
Proof.
  apply (generate_mailto_cc_recoverable "ann@example.com" "Subject Line" "Hello"
           ["admin@company.com"; "manager@company.com"] false).
  - discriminate.
  - repeat constructor.
Defined.

(** * Further properties of the contact loader *)

Section LookupFacts.

Import Csv.

Lemma get_zip_out k fieldnames : forall fields d,
  ~ In k fieldnames ->
  get (KStr k) (zip_into fieldnames fields d) = get (KStr k) d.
Proof.
  induction fieldnames as [|f fs IH]; intros fields d Hk; [reflexivity|].
  destruct fields as [|x xs]; [reflexivity|]. cbn [zip_into].
  rewrite IH by (intros H; apply Hk; now right). rewrite get_set. cbn [key_eqb].
  rewrite (proj2 (String.eqb_neq f k)); [reflexivity|].
  intros ->. apply Hk. now left.
Qed.

Lemma get_zip_at k v fieldnames : forall fields d i,
  NoDup fieldnames ->
  nth_error fieldnames i = Some k -> nth_error fields i = Some v ->
  get (KStr k) (zip_into fieldnames fields d) = Some (VStr v).
Proof.
  induction fieldnames as [|f fs IH]; intros fields d i Hnd Hk Hv.
  - now destruct i.
  - destruct fields as [|x xs]; [now destruct i|].
    inversion Hnd as [|? ? Hf Hfs]; subst. cbn [zip_into].
    destruct i as [|i]; cbn [nth_error] in Hk, Hv.
    + injection Hk as ->. injection Hv as ->.
      rewrite get_zip_out by exact Hf. rewrite get_set. cbn [key_eqb].
      now rewrite String.eqb_refl.
    + now apply (IH xs _ i).
Qed.

Lemma get_zip_beyond k fieldnames : forall fields d i,
  NoDup fieldnames ->
  nth_error fieldnames i = Some k -> nth_error fields i = None ->
  get (KStr k) (zip_into fieldnames fields d) = get (KStr k) d.
Proof.
  induction fieldnames as [|f fs IH]; intros fields d i Hnd Hk Hv; [reflexivity|].
  destruct fields as [|x xs]; [reflexivity|].
  inversion Hnd as [|? ? Hf Hfs]; subst. cbn [zip_into].
  destruct i as [|i]; cbn [nth_error] in Hk, Hv; [discriminate|].
  rewrite (IH xs _ i Hfs Hk Hv), get_set. cbn [key_eqb].
  rewrite (proj2 (String.eqb_neq f k)); [reflexivity|].
  intros ->. apply Hf. now apply nth_error_In in Hk.
Qed.

Lemma get_restval k keys : forall d,
  get (KStr k) (fold_left (fun d key => set (KStr key) VNone d) keys d)
  = if existsb (String.eqb k) keys then Some VNone else get (KStr k) d.
Proof.
  induction keys as [|f fs IH]; intros d; [reflexivity|].
  cbn [fold_left existsb]. rewrite IH, get_set. cbn [key_eqb].
  rewrite (String.eqb_sym f k).
  now destruct (String.eqb k f), (existsb (String.eqb k) fs).
Qed.

Lemma existsb_absent k l : ~ In k l -> existsb (String.eqb k) l = false.
Proof.
  intros H. destruct (existsb (String.eqb k) l) eqn:E; [|reflexivity].
  apply existsb_exists in E as (x & Hx & Hkx). apply String.eqb_eq in Hkx as <-.
  contradiction.
Qed.

(** In a header without repeated names, a name stands behind position [n]
    exactly when its own position is [n] or later. *)
Lemma existsb_skipn k fieldnames : forall n i,
  NoDup fieldnames -> nth_error fieldnames i = Some k ->
  existsb (String.eqb k) (skipn n fieldnames) = Nat.leb n i.
Proof.
  induction fieldnames as [|f fs IH]; intros n i Hnd Hk; [now destruct i|].
  inversion Hnd as [|? ? Hf Hfs]; subst.
  destruct n as [|n]; cbn [skipn Nat.leb].
  - apply existsb_exists. exists k. split; [now apply nth_error_In in Hk | apply String.eqb_refl].
  - destruct i as [|i]; cbn [nth_error] in Hk.
    + injection Hk as ->. apply existsb_absent. intros H. apply Hf.
      rewrite <- (firstn_skipn n fs). apply in_or_app. now right.
    + now apply IH.
Qed.

(** Under the name of a column stands the field of that column, or [None]
    when the row ends before it. *)
Lemma dict_row_lookup k fieldnames fields i :
  NoDup fieldnames -> nth_error fieldnames i = Some k ->
  get (KStr k) (dict_row fieldnames fields)
  = Some (match nth_error fields i with Some v => VStr v | None => VNone end).
Proof.
  intros Hnd Hk. unfold dict_row.
  assert (Hi : i < List.length fieldnames) by (apply nth_error_Some; congruence).
  destruct (Nat.ltb_spec (List.length fieldnames) (List.length fields)) as [Hlt|Hge].
  - rewrite get_set. cbn [key_eqb].
    destruct (nth_error fields i) as [v|] eqn:Ev; [now apply (get_zip_at k v _ _ _ i)|].
    apply nth_error_None in Ev. lia.
  - destruct (Nat.ltb_spec (List.length fields) (List.length fieldnames)) as [Hlt|Hle].
    + rewrite get_restval, (existsb_skipn k fieldnames _ i Hnd Hk).
      destruct (Nat.leb_spec (List.length fields) i) as [Hli|Hli].
      * now rewrite (proj2 (nth_error_None fields i) Hli).
      * destruct (nth_error fields i) as [v|] eqn:Ev; [now apply (get_zip_at k v _ _ _ i)|].
        apply nth_error_None in Ev. lia.
    + destruct (nth_error fields i) as [v|] eqn:Ev; [now apply (get_zip_at k v _ _ _ i)|].
      apply nth_error_None in Ev. lia.
Qed.

Lemma name_and_email_dict_row fieldnames fields a b :
  NoDup fieldnames ->
  nth_error fieldnames a = Some "name" -> nth_error fieldnames b = Some "email" ->
  name_and_email (dict_row fieldnames fields) = fields_at a b fields.
Proof.
  intros Hnd Ha Hb. unfold name_and_email, fields_at.
  rewrite (dict_row_lookup "name" fieldnames fields a Hnd Ha).
  rewrite (dict_row_lookup "email" fieldnames fields b Hnd Hb).
  now destruct (nth_error fields a), (nth_error fields b).
Qed.

Lemma header_has k fieldnames i :
  nth_error fieldnames i = Some k -> existsb (String.eqb k) fieldnames = true.
Proof.
  intros H. apply existsb_exists. exists k.
  split; [now apply nth_error_In in H | apply String.eqb_refl].
Qed.

End LookupFacts.

(** X9. For a header without repeated column names that has a [name] and an
    [email] column, the contacts are the rows that are not blank, in the
    order of the file, none dropped; each carries under [name] and [email]
    the fields of these two columns, and is incomplete exactly when the row
    ends before one of them. *)
Theorem read_rows_contacts
    (fieldnames : list string) (rows : list (list string)) (a b : nat) :
  NoDup fieldnames ->
  nth_error fieldnames a = Some "name" ->
  nth_error fieldnames b = Some "email" ->
  List.length (read_rows (fieldnames :: rows)) = List.length (data_rows rows)
  /\ map name_and_email (read_rows (fieldnames :: rows))
     = map (fields_at a b) (data_rows rows).
Proof.
  intros Hnd Ha Hb. rewrite read_rows_header.
  rewrite (header_has _ _ _ Ha), (header_has _ _ _ Hb). cbn [andb Csv.DictReader].
  fold (data_rows rows). split; [apply length_map|].
  rewrite map_map. apply map_ext. intros fields.
  now apply name_and_email_dict_row.
Qed.

(** The statement of X9 at a file with a blank line, a short row and a
    third column. *)
Lemma read_rows_contacts_witness :
  List.length
    (read_rows [["id"; "email"; "name"]; ["1"; "ann@example.com"; "Ann"]; []; ["2"]]) = 2
  /\ map name_and_email
       (read_rows [["id"; "email"; "name"]; ["1"; "ann@example.com"; "Ann"]; []; ["2"]])
     = [Some ("Ann", "ann@example.com"); None].
Proof.
  apply (read_rows_contacts ["id"; "email"; "name"]
           [["1"; "ann@example.com"; "Ann"]; []; ["2"]] 2 1).
  - repeat constructor; simpl; intuition discriminate.
  - reflexivity.
  - reflexivity.
Defined.

Section LoopFacts.

Variables (subject message : string) (cc_list : list string) (html_body : bool).

Lemma render_contact_incomplete i contact :
  has_keys contact = true -> name_and_email contact = None ->
  exists e, render_contact subject message cc_list html_body i contact = Raise e
            /\ none_error e = true.
Proof.
  unfold has_keys, Csv.has, name_and_email, render_contact, getitem, bind.
  destruct (Csv.get (Csv.KStr "name") contact) as [[n| |l]|]; try discriminate;
    destruct (Csv.get (Csv.KStr "email") contact) as [[e| |l']|]; try discriminate;
    intros _ _; eauto.
Qed.

(** The loop ends with the lines only when every contact is complete; the
    first incomplete one ends it with the exception of a [None]. *)
Lemma render_loop_result contacts : forall i html_lines,
  forallb has_keys contacts = true ->
  match render_loop subject message cc_list html_body i contacts html_lines with
  | Ok _ => forallb complete contacts = true
  | Raise e => none_error e = true /\ forallb complete contacts = false
  end.
Proof.
  induction contacts as [|contact rest IH]; intros i html_lines Hk; [reflexivity|].
  cbn [forallb] in Hk. apply andb_true_iff in Hk as [Hc Hrest].
  cbn [render_loop forallb].
  destruct (name_and_email contact) as [[name email]|] eqn:E.
  - replace (complete contact) with true by (unfold complete; now rewrite E).
    rewrite (render_contact_valid subject message cc_list html_body i contact name email E).
    cbn [bind andb]. now apply IH.
  - replace (complete contact) with false by (unfold complete; now rewrite E).
    destruct (render_contact_incomplete i contact Hc E) as (e & -> & He).
    cbn [bind andb]. now split.
Qed.

End LoopFacts.

Lemma read_rows_have_keys lines : forallb has_keys (read_rows lines) = true.
Proof.
  apply forallb_forall. intros contact H. unfold read_rows in H.
  apply filter_In in H as [_ H]. unfold has_keys. now rewrite andb_comm.
Qed.

(** X10. On the contacts that [read_csv] returns the page is built in full
    or not at all: it is returned exactly when every contact has a name and
    an email that are text, and otherwise the loop ends with the
    [TypeError] or [AttributeError] of a [None]; a [KeyError] never
    occurs. *)
Theorem html_page_all_or_nothing
    (subject message : string) (cc_list : list string) (html_body : bool)
    (lines : list (list string)) :
  match html_page subject message cc_list html_body (read_rows lines) with
  | Ok _ => forallb complete (read_rows lines) = true
  | Raise e => none_error e = true /\ forallb complete (read_rows lines) = false
  end.
Proof.
  unfold html_page.
  pose proof (render_loop_result subject message cc_list html_body (read_rows lines) 0
                html_head (read_rows_have_keys lines)) as H.
  destruct (render_loop subject message cc_list html_body 0 (read_rows lines) html_head);
    exact H.
Qed.

(** A file whose header has no repeated column name and names the [name]
    column and the [email] column, and whose rows all reach both columns,
    gives a page with one list item for every row that is not blank, in the
    order of the file, built from the two fields of that row. *)
Lemma html_page_of_complete_rows
    (subject message : string) (cc_list : list string) (html_body : bool)
    (fieldnames : list string) (rows : list (list string)) (a b : nat) :
  NoDup fieldnames ->
  nth_error fieldnames a = Some "name" ->
  nth_error fieldnames b = Some "email" ->
  Forall (fun fields => a < List.length fields /\ b < List.length fields) (data_rows rows) ->
  exists items : list string,
    html_page subject message cc_list html_body (read_rows (fieldnames :: rows))
    = Ok (Str.join (String LF EmptyString) (html_head ++ items ++ html_tail)%list)
    /\ List.length items = List.length (data_rows rows)
    /\ (forall i fields,
          nth_error (data_rows rows) i = Some fields ->
          nth_error items i
          = Some (list_item i (nth a fields "") (nth b fields "")
                    (generate_mailto (nth b fields "") subject
                       (personalize message (nth a fields "")) cc_list html_body))).
Proof.
  intros Hnd Ha Hb Hrows.
  set (pairs := map (fun fields => (nth a fields "", nth b fields "")) (data_rows rows)).
  assert (Hpairs : map name_and_email (read_rows (fieldnames :: rows)) = map Some pairs).
  { rewrite read_rows_header, (header_has _ _ _ Ha), (header_has _ _ _ Hb).
    cbn [andb Csv.DictReader]. fold (data_rows rows).
    unfold pairs. rewrite !map_map. apply map_ext_in. intros fields Hin.
    rewrite Forall_forall in Hrows. destruct (Hrows fields Hin) as [Hla Hlb].
    rewrite (name_and_email_dict_row fieldnames fields a b Hnd Ha Hb). unfold fields_at.
    rewrite (nth_error_nth' fields "" Hla), (nth_error_nth' fields "" Hlb). reflexivity. }
  exists (items_from subject message cc_list html_body 0 pairs).
  split; [|split].
  - unfold html_page.
    rewrite (render_loop_items subject message cc_list html_body _ pairs 0 html_head Hpairs).
    cbn [bind]. now rewrite <- app_assoc.
  - rewrite items_from_length. unfold pairs. apply length_map.
  - intros i fields Hi.
    rewrite (items_from_nth subject message cc_list html_body pairs 0 i
               (nth a fields "") (nth b fields "")); [reflexivity|].
    unfold pairs. now rewrite (map_nth_error _ _ _ Hi).
Qed.

(** * Further properties of the driver *)

Section RunFacts.

Variable markdown : string -> string.
Variable csv_reader : string -> result (list (list string)).

(** A run with its required arguments builds the page and then prints or
    writes it. *)
Lemma merge_page w args :
  merge markdown csv_reader w args
  = (html_content <- page_of markdown csv_reader w args ;;
     if given (output args) then
       if writable w (text (output args))
       then Ok (Exit 0 "" "" (Some (text (output args), html_content)))
       else Raise FileError
     else Ok (Exit 0 (println html_content) "" None)).
Proof.
  unfold merge, page_of. cbn zeta.
  destruct (read_csv csv_reader w (text (contacts args))) as [cs|e]; [|reflexivity].
  cbn [bind].
  destruct (read_message w (text (message args))) as [m|e]; [|reflexivity].
  reflexivity.
Qed.

Lemma main_run w args :
  missing_args args = [] ->
  main markdown csv_reader w args
  = match page_of markdown csv_reader w args with
    | Ok html_content =>
        if given (output args) then
          if writable w (text (output args))
          then Exit 0 "" "" (Some (text (output args), html_content))
          else Uncaught FileError
        else Exit 0 (println html_content) "" None
    | Raise e => Uncaught e
    end.
Proof.
  intros H. unfold main. rewrite H, merge_page.
  destruct (page_of markdown csv_reader w args) as [page|e]; [|reflexivity].
  cbn [bind]. destruct (given (output args)); [|reflexivity].
  now destruct (writable w (text (output args))).
Qed.

Lemma missing_args_given args :
  missing_args args = [] <->
  given (contacts args) = true /\ given (message args) = true /\ given (subject args) = true.
Proof.
  unfold missing_args.
  destruct (given (contacts args)), (given (message args)), (given (subject args));
    cbn [negb app]; split; try discriminate; try (intros (? & ? & ?); discriminate);
    now repeat split.
Qed.

End RunFacts.

(** X11. A run with the three required arguments and no output path, on
    readable files, with a header that has no repeated column name and
    names the [name] and the [email] column and with rows that all reach
    both columns, exits with status 0, prints nothing to the error stream,
    writes no file, and prints the page followed by a newline: the fixed
    head, one list item for every row that is not blank, in the order of
    the file and built from the two fields of that row and the converted
    message, and the fixed tail. *)
Theorem main_prints_page
    (markdown : string -> string) (csv_reader : string -> result (list (list string)))
    (w : World) (args : Args) (f m : string)
    (fieldnames : list string) (rows : list (list string)) (a b : nat) :
  missing_args args = [] ->
  given (output args) = false ->
  read_text w (text (contacts args)) = Some f ->
  csv_reader f = Ok (fieldnames :: rows) ->
  read_text w (text (message args)) = Some m ->
  NoDup fieldnames ->
  nth_error fieldnames a = Some "name" ->
  nth_error fieldnames b = Some "email" ->
  Forall (fun fields => a < List.length fields /\ b < List.length fields) (data_rows rows) ->
  exists items : list string,
    main markdown csv_reader w args
    = Exit 0 (println (Str.join (String LF EmptyString) (html_head ++ items ++ html_tail)%list))
        "" None
    /\ List.length items = List.length (data_rows rows)
    /\ (forall i fields,
          nth_error (data_rows rows) i = Some fields ->
          nth_error items i
          = Some (list_item i (nth a fields "") (nth b fields "")
                    (generate_mailto (nth b fields "") (text (subject args))
                       (personalize
                          (convert_message markdown (html_body args)
                             (text (message args)) m)
                          (nth a fields ""))
                       (parse_cc (cc args)) (html_body args)))).
Proof.
  intros Hargs Hout Hf Hcsv Hm Hnd Ha Hb Hrows.
  destruct (html_page_of_complete_rows (text (subject args))
              (convert_message markdown (html_body args) (text (message args)) m)
              (parse_cc (cc args)) (html_body args) fieldnames rows a b Hnd Ha Hb Hrows)
    as (items & Hpage & Hlen & Hitems).
  exists items. split; [|split; assumption].
  rewrite (main_run markdown csv_reader w args Hargs).
  unfold page_of, read_csv, read_message. cbn zeta.
  rewrite Hf, Hcsv, Hm. cbn [bind]. rewrite Hpage, Hout. reflexivity.
Qed.

(** The statement of X11 at the sample directory and reader. *)
Lemma main_prints_page_witness :
  exists items : list string,
    main md_paragraph sample_reader (sample_world 0 (fun _ => None))
      {| contacts := Some "contacts.csv"; message := Some "message.md";
         subject := Some "Greetings"; output := None; cc := "boss@example.com";
         html_body := true |}
    = Exit 0 (println (Str.join (String LF EmptyString) (html_head ++ items ++ html_tail)%list))
        "" None
    /\ List.length items = 2.
Proof.
  destruct (main_prints_page md_paragraph sample_reader (sample_world 0 (fun _ => None))
              {| contacts := Some "contacts.csv"; message := Some "message.md";
                 subject := Some "Greetings"; output := None; cc := "boss@example.com";
                 html_body := true |}
              "name,email" "Hello {{name}}" ["name"; "email"]
              [["Alice"; "alice@example.com"]; ["Bob"; "bob@example.com"]] 0 1)
    as (items & Hrun & Hlen & _).
  - reflexivity.
  - reflexivity.
  - reflexivity.
  - reflexivity.
  - reflexivity.
  - repeat constructor; simpl; intuition discriminate.
  - reflexivity.
  - reflexivity.
  - repeat constructor.
  - exists items. split; [exact Hrun | exact Hlen].
Defined.

(** X12. The output path only redirects the page. For a non-empty path, a
    run that without [--output] prints the page and exits with status 0
    writes, with [--output], that page without the final newline to the
    path and prints nothing, or ends with the error of the file when the
    path cannot be written; a run that fails without [--output] fails in
    the same way with it. *)
Theorem main_output_redirects
    (markdown : string -> string) (csv_reader : string -> result (list (list string)))
    (w : World) (c m s : option string) (ccs : string) (h : bool) (path : string) :
  Str.truthy path = true ->
  match main markdown csv_reader w
          {| contacts := c; message := m; subject := s;
             output := None; cc := ccs; html_body := h |} with
  | Exit 0 out err _ =>
      exists page,
        out = println page /\ err = ""
        /\ main markdown csv_reader w
             {| contacts := c; message := m; subject := s;
                output := Some path; cc := ccs; html_body := h |}
           = if writable w path
             then Exit 0 "" "" (Some (path, page))
             else Uncaught FileError
  | other =>
      main markdown csv_reader w
        {| contacts := c; message := m; subject := s;
           output := Some path; cc := ccs; html_body := h |}
      = other
  end.
Proof.
  intros Hpath.
  set (args0 := {| contacts := c; message := m; subject := s;
                   output := None; cc := ccs; html_body := h |}).
  set (args1 := {| contacts := c; message := m; subject := s;
                   output := Some path; cc := ccs; html_body := h |}).
  assert (Hmiss : missing_args args1 = missing_args args0) by reflexivity.
  assert (Hpage : page_of markdown csv_reader w args1 = page_of markdown csv_reader w args0)
    by reflexivity.
  destruct (missing_args args0) as [|x l] eqn:E.
  - rewrite (main_run markdown csv_reader w args0 E).
    rewrite (main_run markdown csv_reader w args1) by exact Hmiss.
    rewrite Hpage.
    destruct (page_of markdown csv_reader w args0) as [page|e]; [|reflexivity].
    cbn [args0 args1 output given text]. rewrite Hpath.
    exists page. now repeat split.
  - rewrite (main_missing markdown csv_reader w args0) by congruence.
    rewrite (main_missing markdown csv_reader w args1) by congruence.
    now rewrite Hmiss, E.
Qed.

(** The statement of X12 at the sample directory and reader. *)
Lemma main_output_redirects_witness :
  exists page,
    main md_paragraph sample_reader (sample_world 0 (fun _ => None))
      {| contacts := Some "contacts.csv"; message := Some "message.md";
         subject := Some "Greetings"; output := Some "output.html"; cc := "";
         html_body := false |}
    = Exit 0 "" "" (Some ("output.html", page)).
Proof.
  pose proof (main_output_redirects md_paragraph sample_reader
                (sample_world 0 (fun _ => None))
                (Some "contacts.csv") (Some "message.md") (Some "Greetings") "" false
                "output.html" eq_refl) as H.
  destruct H as (page & _ & _ & H). exists page. exact H.
Defined.

(** X13. However a run ends, it ends in one of three ways. With status 1,
    nothing printed to standard output and no file written, exactly when a
    required argument is missing. With status 0 and an empty error stream,
    the page either printed with a final newline and no file written (no
    output path) or written to the output path with nothing printed, never
    both. Or with an uncaught exception, which can only happen once all
    required arguments are given. *)
Theorem main_outcomes
    (markdown : string -> string) (csv_reader : string -> result (list (list string)))
    (w : World) (args : Args) :
  match main markdown csv_reader w args with
  | Exit status out err written =>
      (status = 1 /\ out = "" /\ written = None /\ missing_args args <> [])
      \/ (status = 0 /\ err = "" /\ missing_args args = []
          /\ exists page,
               (given (output args) = false /\ out = println page /\ written = None)
               \/ (given (output args) = true /\ out = ""
                   /\ written = Some (text (output args), page)))
  | Uncaught e => missing_args args = []
  end.
Proof.
  destruct (missing_args args) as [|x l] eqn:E.
  - rewrite (main_run markdown csv_reader w args E).
    destruct (page_of markdown csv_reader w args) as [page|e]; [|reflexivity].
    destruct (given (output args)) eqn:Ho.
    + destruct (writable w (text (output args))); [|reflexivity].
      right. repeat split. exists page. right. now repeat split.
    + right. repeat split. exists page. left. now repeat split.
  - rewrite (main_missing markdown csv_reader w args) by congruence.
    left. repeat split. discriminate.
Qed.

(** X14. Once the required arguments are given, a file that cannot be read
    ends the run with the exception, before anything is printed or written,
    and the contacts file comes first: an unreadable contacts file ends the
    run whatever the message file is, an error of the CSV reader is passed
    on as it is, and the message file is read only after the contacts were
    read. *)
Theorem main_file_errors
    (markdown : string -> string) (csv_reader : string -> result (list (list string)))
    (w : World) (args : Args) :
  missing_args args = [] ->
  (read_text w (text (contacts args)) = None ->
   main markdown csv_reader w args = Uncaught FileError)
  /\ (forall f e,
        read_text w (text (contacts args)) = Some f -> csv_reader f = Raise e ->
        main markdown csv_reader w args = Uncaught e)
  /\ (forall f lines,
        read_text w (text (contacts args)) = Some f -> csv_reader f = Ok lines ->
        read_text w (text (message args)) = None ->
        main markdown csv_reader w args = Uncaught FileError).
Proof.
  intros Hargs. rewrite (main_run markdown csv_reader w args Hargs).
  unfold page_of, read_csv, read_message. cbn zeta.
  split; [|split].
  - now intros ->.
  - intros f e -> Hcsv. now rewrite Hcsv.
  - intros f lines -> Hcsv Hm. now rewrite Hcsv, Hm.
Qed.

(** The statement of X14 at a directory without the contacts file. *)
Lemma main_file_errors_witness :
  main md_paragraph sample_reader (sample_world 0 (fun _ => None))
    {| contacts := Some "missing.csv"; message := Some "message.md";
       subject := Some "Greetings"; output := Some "output.html"; cc := "";
       html_body := false |}
  = Uncaught FileError.
Proof.
  exact (proj1 (main_file_errors md_paragraph sample_reader
                  (sample_world 0 (fun _ => None))
                  {| contacts := Some "missing.csv"; message := Some "message.md";
                     subject := Some "Greetings"; output := Some "output.html"; cc := "";
                     html_body := false |} eq_refl) eq_refl).
Defined.
